(** * React notes repository: list containers, conditional rendering, SOLID classes

    A shallow embedding of the executable parts of the repository:

    - the "Lists and Keys" guide: the event handlers of [DynamicList]
      ([addItem], [removeItem], [updateItem]) and of [SortableList]
      ([filterByCategory], [sortItems]);
    - the conditional-rendering catalogue ([GreetingIfStatement], ...,
      [NotificationNull]);
    - the class declarations of the SOLID guide, with method lookup along
      the [extends] chain.

    Event handlers are computations over the component state (the value
    held by [useState]); a computation ends in a JavaScript completion,
    normal or abrupt ([throw]). *)

From stdpp Require Import base option list strings pretty sorting gmap.
From Stdlib Require Import ZArith Lia SpecFloat Ascii.

Open Scope string_scope.
Open Scope list_scope.
Open Scope Z_scope.

(** ** Completions and stateful handlers *)

(** The outcome of running a piece of JavaScript: it returns a value, or it
    throws [new Error(msg)]. *)
Inductive completion (A : Type) : Type :=
  | Normal (v : A)
  | Throw (msg : string).
Arguments Normal {A} v.
Arguments Throw {A} msg.

(** A handler reads and replaces a state of type [St]. *)
Definition handler (St A : Type) : Type := St → completion A * St.

Global Instance handler_ret {St} : MRet (handler St) :=
  λ A a s, (Normal a, s).

Global Instance handler_bind {St} : MBind (handler St) :=
  λ A B f m s,
    match m s with
    | (Normal a, s') => f a s'
    | (Throw msg, s') => (Throw msg, s')
    end.

Definition get_state {St} : handler St St := λ s, (Normal s, s).
Definition set_state {St} (s' : St) : handler St unit := λ _, (Normal (), s').
Definition throw_error {St A} (msg : string) : handler St A := λ s, (Throw msg, s).

(** A completion that does not touch the state. *)
Definition lift {St A} (c : completion A) : handler St A := λ s, (c, s).

Definition run {St A} (h : handler St A) (s : St) : completion A * St := h s.

(** The state a handler leaves behind. *)
Definition next_state {St A} (h : handler St A) (s : St) : St := (run h s).2.

(** ** Numbers used as identifiers

    Identifiers of list records are JavaScript numbers. The list
    components start from integer literals and create identifiers only by
    [Math.max(...) + 1], so the values that occur are integers and
    [-Infinity] (the value of [Math.max()] with no argument). An integer
    [Int z] stands for the double of that value. *)
Inductive number : Type :=
  | Int (z : Z)
  | NegInfinity.

Global Instance number_eq_dec : EqDecision number.
Proof. solve_decision. Defined.

(** [Number.MAX_SAFE_INTEGER] and [Number.isSafeInteger]. *)
Definition MAX_SAFE_INTEGER : Z := 2 ^ 53 - 1.

Definition isSafeInteger (n : number) : bool :=
  match n with
  | Int z => bool_decide (- MAX_SAFE_INTEGER ≤ z ≤ MAX_SAFE_INTEGER)
  | NegInfinity => false
  end.

(** The double nearest to an integer: the integer itself up to 2^53, and
    beyond that the nearest multiple of the spacing of doubles at its
    size, a tie going to the even multiple. *)
Definition round_to_double (z : Z) : Z :=
  let a := Z.abs z in
  if bool_decide (a ≤ 2 ^ 53) then z
  else
    let ulp := 2 ^ (Z.log2 a - 52) in
    let q := a / ulp in
    let r := a mod ulp in
    let q' := if bool_decide (2 * r < ulp) then q
              else if bool_decide (ulp < 2 * r) then q + 1
              else if Z.even q then q else q + 1 in
    Z.sgn z * (q' * ulp).

(** [a < b] on numbers. *)
Definition number_lt (a b : number) : bool :=
  match a, b with
  | Int x, Int y => bool_decide (x < y)
  | NegInfinity, Int _ => true
  | _, NegInfinity => false
  end.

(** [a + b] on numbers: the exact sum rounded to a double; [-Infinity]
    absorbs every finite summand. (The code only ever adds 1, so a sum
    never leaves the finite doubles.) *)
Definition number_add (a b : number) : number :=
  match a, b with
  | Int x, Int y => Int (round_to_double (x + y))
  | _, _ => NegInfinity
  end.

(** [Math.max(...args)]: the running maximum starts at [-Infinity] and is
    replaced by every argument that exceeds it. *)
Definition max_step (highest n : number) : number :=
  if number_lt highest n then n else highest.

Definition Math_max (args : list number) : number :=
  foldl max_step NegInfinity args.

(** [m] is a largest element of [l]. *)
Definition is_maximum (m : number) (l : list number) : Prop :=
  m ∈ l ∧ Forall (λ x, number_lt m x = false) l.

(** [String(n)], as used by a template literal: the decimal digits of an
    integer (the form JavaScript prints below 10^21). *)
Definition ToString (n : number) : string :=
  match n with
  | Int z => pretty z
  | NegInfinity => "-Infinity"
  end.

(** Strict equality [a === b] and inequality [a !== b] of two numbers, or of
    two strings. No NaN occurs among the identifiers, so both are plain
    equality tests. *)
Definition strict_eq {A} `{EqDecision A} (a b : A) : bool := bool_decide (a = b).
Definition strict_ne {A} `{EqDecision A} (a b : A) : bool := negb (strict_eq a b).

(** ** [Array.prototype.sort]

    The built-in sort of the host: ECMAScript requires it to be stable, and
    for a consistent comparison function its result is the one stable
    sorted arrangement. It is embedded as a stable insertion sort: an
    element goes in front of the first element it does not compare greater
    than, so equal elements keep the order they came in. *)
Fixpoint sort_insert {A} (comparefn : A → A → Z) (x : A) (sorted : list A) : list A :=
  match sorted with
  | [] => [x]
  | y :: rest =>
      if bool_decide (comparefn x y ≤ 0) then x :: y :: rest
      else y :: sort_insert comparefn x rest
  end.

Definition Array_sort {A} (comparefn : A → A → Z) (l : list A) : list A :=
  foldr (sort_insert comparefn) [] l.

(** [a] may stand before [b]: the comparison does not put [a] after [b]. *)
Definition not_after {A} (comparefn : A → A → Z) (a b : A) : Prop :=
  comparefn a b ≤ 0.

(** ** DynamicList: a list with add, remove and update *)

Module DynamicList.

Record Item : Type := mkItem { id : number; text : string }.

Global Instance Item_eq_dec : EqDecision Item.
Proof. solve_decision. Defined.

(** [useState([{ id: 1, text: 'Item 1' }, { id: 2, text: 'Item 2' }])] *)
Definition initialItems : list Item :=
  [ mkItem (Int 1) "Item 1"; mkItem (Int 2) "Item 2" ].

Definition setItems (newItems : list Item) : handler (list Item) unit :=
  set_state newItems.

(** [{ ...item, text: newText }] *)
Definition with_text (item : Item) (newText : string) : Item :=
  mkItem (id item) newText.

Definition addItem : handler (list Item) unit :=
  items ← get_state;
  let newId := number_add (Math_max (id <$> items)) (Int 1) in
  setItems (items ++ [ mkItem newId ("Item " +:+ ToString newId) ]).

Definition removeItem (id0 : number) : handler (list Item) unit :=
  items ← get_state;
  setItems (filter (λ item, strict_ne (id item) id0) items).

Definition updateItem (id0 : number) (newText : string) : handler (list Item) unit :=
  items ← get_state;
  setItems ((λ item, if strict_eq (id item) id0 then with_text item newText else item) <$> items).

(** The identifiers of a state, in order. *)
Definition ids (items : list Item) : list number := id <$> items.

(** Every identifier is a safe integer: an integer between
    [-(2^53 - 1)] and [2^53 - 1]. *)
Definition safe_integer_ids (items : list Item) : Prop :=
  Forall (λ item, isSafeInteger (id item) = true) items.

(** What Add promises on [items]: the handler completes and leaves
    [items] followed by one record [r]; the identifier of [r] is a largest
    identifier [m] of [items] plus one and exceeds every identifier of
    [items]; the text of [r] is "Item " followed by that identifier. *)
Definition add_appends_fresh (items : list Item) : Prop :=
  ∃ r m,
    run addItem items = (Normal (), items ++ [r]) ∧
    is_maximum m (ids items) ∧
    id r = number_add m (Int 1) ∧
    Forall (λ item, number_lt (id item) (id r) = true) items ∧
    text r = "Item " +:+ ToString (id r).

(** Add fails without a signal on [items]: it completes and appends a
    record as it always does, but the identifier it hands out is no
    integer. *)
Definition fails_silently (items : list Item) : Prop :=
  ∃ r, run addItem items = (Normal (), items ++ [r]) ∧ ∀ z, id r ≠ Int z.

(** The state after Remove, Remove, Add, starting from the initial one. *)
Definition afterEmptying : list Item :=
  next_state addItem
    (next_state (removeItem (Int 2))
       (next_state (removeItem (Int 1)) initialItems)).

End DynamicList.

(** ** SortableList: filtering and sorting *)

Module SortableList.

Record Item : Type := mkItem { id : number; text : string; category : string }.

Global Instance Item_eq_dec : EqDecision Item.
Proof. solve_decision. Defined.

Definition initialItems : list Item :=
  [ mkItem (Int 1) "Apple" "fruit";
    mkItem (Int 2) "Banana" "fruit";
    mkItem (Int 3) "Carrot" "vegetable" ].

Definition setItems (newItems : list Item) : handler (list Item) unit :=
  set_state newItems.

Definition filterByCategory (category0 : string) : handler (list Item) (list Item) :=
  items ← get_state;
  mret (filter (λ item, strict_eq (category item) category0) items).

Section Host.
(** [String.prototype.localeCompare] of the host: negative, zero or
    positive. *)
Variable localeCompare : string → string → Z.

Definition by_text (a b : Item) : Z := localeCompare (text a) (text b).

Definition sortItems : handler (list Item) unit :=
  items ← get_state;
  let sorted := Array_sort by_text items in
  setItems sorted.

End Host.

Definition ids (items : list Item) : list number := id <$> items.

(** No two different records of the sequence compare equal by text. *)
Definition no_ties (localeCompare : string → string → Z) (items : list Item) : Prop :=
  ∀ a b, a ∈ items → b ∈ items → localeCompare (text a) (text b) = 0 → a = b.

End SortableList.

(** What ECMAScript calls a consistent comparison function, in the two
    facts the sort relies on. *)
Class ConsistentComparator {A} (comparefn : A → A → Z) : Prop := {
  comparefn_flip : ∀ a b, 0 < comparefn a b ↔ comparefn b a < 0;
  comparefn_trans : ∀ a b c, comparefn a b ≤ 0 → comparefn b c ≤ 0 → comparefn a c ≤ 0
}.

(** Comparison of two strings by their character codes, one comparison
    function that hosts provide for plain ASCII text. *)
Definition codeCompare (a b : string) : Z :=
  match String.compare a b with
  | Lt => -1
  | Eq => 0
  | Gt => 1
  end.

(** ** Conditional rendering *)

Module Conditional.

(** The values a prop can hold. Numbers are IEEE doubles; symbols and
    objects are identified by a reference. *)
Inductive value : Type :=
  | VUndefined
  | VNull
  | VBoolean (b : bool)
  | VNumber (x : spec_float)
  | VBigInt (z : Z)
  | VString (s : string)
  | VSymbol (ref : nat)
  | VObject (ref : nat).

(** [ToBoolean]: the falsy values are [undefined], [null], [false], the
    zeros, [NaN], [0n] and the empty string. *)
Definition ToBoolean (v : value) : bool :=
  match v with
  | VUndefined | VNull => false
  | VBoolean b => b
  | VNumber (S754_zero _) | VNumber S754_nan => false
  | VNumber _ => true
  | VBigInt z => negb (Z.eqb z 0)
  | VString s => negb (String.eqb s EmptyString)
  | VSymbol _ | VObject _ => true
  end.

(** [v === "literal"] *)
Definition strict_eq_string (v : value) (literal : string) : bool :=
  match v with
  | VString s => String.eqb s literal
  | _ => false
  end.

(** What a component returns: an element (a host tag or a component, with
    its children) or a bare value such as a string or [null]. *)
Inductive elementType : Type :=
  | Tag (name : string)
  | Component (name : string).

#[warnings="-register-all"]
Inductive node : Type :=
  | Element (type : elementType) (children : list node)
  | Val (v : value).

Definition h1 (children : list node) : node := Element (Tag "h1") children.
Definition h2 (children : list node) : node := Element (Tag "h2") children.
Definition div (children : list node) : node := Element (Tag "div") children.
Definition Text (s : string) : node := Val (VString s).

Definition GreetingIfStatement (isLoggedIn : value) : node :=
  if ToBoolean isLoggedIn then h1 [Text "Welcome back!"]
  else h1 [Text "Please log in."].

Definition GreetingTernary (isLoggedIn : value) : node :=
  div [ if ToBoolean isLoggedIn then h1 [Text "Welcome back!"]
        else h1 [Text "Please log in."] ].

(** [a && b] yields [a] itself when [a] is falsy. *)
Definition NotificationLogicalAnd (hasNewMessages : value) : node :=
  div [ if ToBoolean hasNewMessages then h2 [Text "You have new messages!"]
        else Val hasNewMessages ].

(** [a || b] yields [a] itself when [a] is truthy. *)
Definition UserName (name : value) : node :=
  h1 [ if ToBoolean name then Val name else Text "Guest" ].

Definition DashboardIIFE (role : value) : node :=
  div [ if strict_eq_string role "admin" then h1 [Text "Welcome, Admin!"]
        else if strict_eq_string role "user" then h1 [Text "Welcome, User!"]
        else h1 [Text "Please sign in."] ].

Definition AdminPanel : node := h1 [Text "Admin Panel"].
Definition UserPanel : node := h1 [Text "User Panel"].

Definition DashboardConditionalComponents (role : value) : node :=
  div [ if strict_eq_string role "admin" then Element (Component "AdminPanel") []
        else Element (Component "UserPanel") [] ].

Definition NotificationNull (show : value) : node :=
  if negb (ToBoolean show) then Val VNull
  else h2 [Text "You have new notifications!"].

End Conditional.

(** ** The classes of the SOLID guide *)

Module Solid.

(** Method bodies, statement by statement. A call inside an expression
    is listed before the statement that uses its result, and what the
    arguments of a call evaluate to belongs to the call. [ConsoleLog]
    prints a string literal (the first argument of [console.log]);
    [ConsoleLogTemplate] prints what a template literal evaluates to, and
    evaluating it can throw: a property read from [undefined] or [null],
    a value with no string form. The text of a template and of a
    condition is kept as written. *)
#[warnings="-register-all"]
Inductive stmt : Type :=
  | ConsoleLog (line : string)
  | ConsoleLogTemplate (template : string)
  | ThrowError (msg : string)
  | MethodCall (receiver method : string)
  | New (cls : string)
  | Assign (target : string)
  | Return
  | If (cond : string) (thenBranch elseBranch : list stmt).

Record class : Type := mkClass {
  cname : string;
  extends : option string;
  methods : list (string * list stmt)
}.

Definition classes : list class := [
  (* 1. Single Responsibility *)
  mkClass "UserBad" None [
    ("constructor", [Assign "this.name"]);
    ("saveToDatabase", [ConsoleLogTemplate "Saving ${this.name} to database"]);
    ("generateReport", [ConsoleLogTemplate "Generating report for ${this.name}"]);
    ("sendEmail", [ConsoleLogTemplate "Sending email to ${this.name}"]) ];
  mkClass "User" None [
    ("constructor", [Assign "this.name"]);
    ("getName", [Return]) ];
  mkClass "UserRepository" None [
    ("saveUser", [MethodCall "user" "getName";
                  ConsoleLogTemplate "Saving ${user.getName()} to database"]) ];
  mkClass "ReportGenerator" None [
    ("generateUserReport", [MethodCall "user" "getName";
                            ConsoleLogTemplate "Generating report for ${user.getName()}"]) ];
  mkClass "EmailService" None [
    ("sendEmailToUser", [MethodCall "user" "getName";
                         ConsoleLogTemplate "Sending email to ${user.getName()}"]) ];
  (* 2. Open-Closed *)
  mkClass "PaymentProcessorBad" None [
    ("processPayment",
      [If "payment.type === 'creditCard'"
          [ConsoleLog "Processing credit card payment"]
          [If "payment.type === 'paypal'"
              [ConsoleLog "Processing PayPal payment"]
              [If "payment.type === 'bitcoin'"
                  [ConsoleLog "Processing Bitcoin payment"]
                  []]]]) ];
  mkClass "Payment" None [
    ("process", [ThrowError "process() method must be implemented"]) ];
  mkClass "CreditCardPayment" (Some "Payment") [
    ("process", [ConsoleLog "Processing credit card payment"]) ];
  mkClass "PayPalPayment" (Some "Payment") [
    ("process", [ConsoleLog "Processing PayPal payment"]) ];
  mkClass "BitcoinPayment" (Some "Payment") [
    ("process", [ConsoleLog "Processing Bitcoin payment"]) ];
  mkClass "PaymentProcessor" None [
    ("processPayment", [MethodCall "payment" "process"]) ];
  (* 3. Liskov Substitution *)
  mkClass "BirdBad" None [
    ("fly", [ConsoleLog "Flying..."]) ];
  mkClass "PenguinBad" (Some "BirdBad") [
    ("fly", [ThrowError "Penguins can't fly!"]) ];
  mkClass "Bird" None [
    ("move", [ConsoleLog "Moving..."]) ];
  mkClass "FlyingBird" (Some "Bird") [
    ("fly", [ConsoleLog "Flying..."]) ];
  mkClass "SwimmingBird" (Some "Bird") [
    ("swim", [ConsoleLog "Swimming..."]) ];
  mkClass "Penguin" (Some "SwimmingBird") [];
  mkClass "Sparrow" (Some "FlyingBird") [];
  (* 4. Interface Segregation *)
  mkClass "MachineBad" None [
    ("print", []); ("scan", []); ("fax", []); ("photocopy", []) ];
  mkClass "Printer" None [
    ("print", [ConsoleLog "Printing..."]) ];
  mkClass "Scanner" None [
    ("scan", [ConsoleLog "Scanning..."]) ];
  mkClass "FaxMachine" None [
    ("fax", [ConsoleLog "Faxing..."]) ];
  mkClass "AllInOnePrinter" None [
    ("constructor", [New "Printer"; Assign "this.printer";
                     New "Scanner"; Assign "this.scanner";
                     New "FaxMachine"; Assign "this.faxMachine"]);
    ("print", [MethodCall "this.printer" "print"]);
    ("scan", [MethodCall "this.scanner" "scan"]);
    ("fax", [MethodCall "this.faxMachine" "fax"]) ];
  mkClass "BasicPrinter" (Some "Printer") [];
  (* 5. Dependency Inversion *)
  mkClass "MySQLDatabaseBad" None [
    ("save", [ConsoleLog "Saving to MySQL database:"]) ];
  mkClass "UserServiceBad" None [
    ("constructor", [New "MySQLDatabaseBad"; Assign "this.database"]);
    ("saveUser", [MethodCall "this.database" "save"]) ];
  mkClass "Database" None [
    ("save", [ThrowError "save() method must be implemented"]) ];
  mkClass "MySQLDatabase" (Some "Database") [
    ("save", [ConsoleLog "Saving to MySQL database:"]) ];
  mkClass "MongoDatabase" (Some "Database") [
    ("save", [ConsoleLog "Saving to MongoDB database:"]) ];
  mkClass "UserService" None [
    ("constructor", [Assign "this.database"]);
    ("saveUser", [MethodCall "this.database" "save"]) ];
  (* The task management example *)
  mkClass "TaskRepository" None [
    ("save", [ThrowError "Not implemented"]);
    ("delete", [ThrowError "Not implemented"]);
    ("find", [ThrowError "Not implemented"]) ];
  mkClass "NotificationService" None [
    ("notify", [ThrowError "Not implemented"]) ];
  mkClass "MongoTaskRepository" (Some "TaskRepository") [
    ("save", [ConsoleLog "Saving task to MongoDB"]);
    ("delete", [ConsoleLog "Deleting task from MongoDB"]);
    ("find", [ConsoleLog "Finding task in MongoDB"; Return]) ];
  mkClass "EmailNotificationService" (Some "NotificationService") [
    ("notify", [ConsoleLogTemplate "Sending email to ${user.email}: ${message}"]) ];
  mkClass "SlackNotificationService" (Some "NotificationService") [
    ("notify", [ConsoleLogTemplate "Sending Slack message to ${user.slackId}: ${message}"]) ];
  mkClass "Task" None [
    ("constructor", [Assign "this.id"; Assign "this.title"; Assign "this.description";
                     Assign "this.assignee"; Assign "this.completed"]);
    ("complete", [Assign "this.completed"]) ];
  mkClass "TaskService" None [
    ("constructor", [Assign "this.taskRepository"; Assign "this.notificationService"]);
    ("createTask", [New "Task"; Assign "task";
                    MethodCall "this.taskRepository" "save";
                    MethodCall "this.notificationService" "notify";
                    Return]);
    ("completeTask", [MethodCall "this.taskRepository" "find"; Assign "task";
                      MethodCall "task" "complete";
                      MethodCall "this.taskRepository" "save";
                      MethodCall "this.notificationService" "notify"]) ]
].




Definition find_class (name : string) : option class :=
  List.find (λ c, String.eqb (cname c) name) classes.

Definition own_method (c : class) (m : string) : option (list stmt) :=
  snd <$> List.find (λ entry, String.eqb entry.1 m) (methods c).

(** Method lookup along the prototype chain: the class's own method, or
    else the one its parent provides. The answer names the class that
    declares the method found. The chain is at most as long as the
    class list. *)
Fixpoint resolve (depth : nat) (cls m : string) : option (string * list stmt) :=
  match depth with
  | O => None
  | S depth' =>
      c ← find_class cls;
      match own_method c m with
      | Some body => Some (cname c, body)
      | None => parent ← extends c; resolve depth' parent m
      end
  end.

Definition lookup_method (cls m : string) : option (string * list stmt) :=
  resolve (length classes) cls m.

(** [sub] extends [base], directly or through other classes. *)
Fixpoint inherits_from (depth : nat) (sub base : string) : bool :=
  match depth with
  | O => false
  | S depth' =>
      match find_class sub ≫= extends with
      | Some parent => String.eqb parent base || inherits_from depth' parent base
      | None => false
      end
  end.

Definition subclass_of (sub base : string) : bool :=
  inherits_from (length classes) sub base.

(** A body contains a [throw] statement, at any depth. *)
Fixpoint has_throw (s : stmt) : bool :=
  match s with
  | ThrowError _ => true
  | If _ t e => existsb has_throw t || existsb has_throw e
  | _ => false
  end.

Definition throws_explicitly (body : list stmt) : bool := existsb has_throw body.





(** Running a body. The console is the state. The surroundings of the
    call give what depends on the values at hand, each as a completion:
    what a condition evaluates to, the text a template literal evaluates
    to, how a receiver answers a call, how a constructor runs. Reading
    [payment.type] or [user.email] off a missing object makes the
    condition or the template throw a [TypeError]. [Some ()] from a
    statement means [return] was reached. *)
Definition console : Type := list string.

Record surroundings : Type := {
  holds : string → completion bool;
  text_of : string → completion string;
  answer : string → string → handler console unit;
  construct : string → handler console unit
}.

Definition console_log (line : string) : handler console unit :=
  out ← get_state; set_state (out ++ [line]).

Fixpoint exec_stmt (env : surroundings) (s : stmt) : handler console (option unit) :=
  match s with
  | ConsoleLog line => console_log line ;; mret None
  | ConsoleLogTemplate template =>
      line ← lift (text_of env template); console_log line ;; mret None
  | ThrowError msg => throw_error msg
  | MethodCall receiver m => answer env receiver m ;; mret None
  | New cls => construct env cls ;; mret None
  | Assign _ => mret None
  | Return => mret (Some ())
  | If cond t e =>
      b ← lift (holds env cond);
      (fix exec_list (body : list stmt) : handler console (option unit) :=
         match body with
         | [] => mret None
         | s' :: rest =>
             r ← exec_stmt env s';
             match r with
             | Some _ => mret r
             | None => exec_list rest
             end
         end) (if b : bool then t else e)
  end.

Fixpoint exec (env : surroundings) (body : list stmt) : handler console unit :=
  match body with
  | [] => mret ()
  | s :: rest =>
      r ← exec_stmt env s;
      match r with
      | Some _ => mret ()
      | None => exec env rest
      end
  end.

(** Calling method [m] on an instance of class [cls]. A method that no
    class of the chain declares is not callable: a [TypeError]. *)
Definition invoke (env : surroundings) (cls m : string) : handler console unit :=
  match lookup_method cls m with
  | Some (_, body) => exec env body
  | None => throw_error "TypeError: not a function"
  end.



(** The methods that only hand the call on: class, method, and the
    receiver and method called. *)
Definition delegations : list (string * string * (string * string)) := [
  ("PaymentProcessor", "processPayment", ("payment", "process"));
  ("AllInOnePrinter", "print", ("this.printer", "print"));
  ("AllInOnePrinter", "scan", ("this.scanner", "scan"));
  ("AllInOnePrinter", "fax", ("this.faxMachine", "fax"));
  ("UserServiceBad", "saveUser", ("this.database", "save"));
  ("UserService", "saveUser", ("this.database", "save"))
].

(** An instance of [c] can stand in for one of [base]: it answers every
    method [base] declares, and where the method of [base] holds no
    [throw], the one [c] answers with holds none either, unless [c] is
    PenguinBad and the method is fly. *)
Definition substitutes (c base : class) : Prop :=
  subclass_of (cname c) (cname base) = true →
  Forall (λ entry,
            ∃ owner body',
              lookup_method (cname c) entry.1 = Some (owner, body') ∧
              (throws_explicitly entry.2 = false → throws_explicitly body' = true →
               (cname c, entry.1) = ("PenguinBad", "fly")))
         (methods base).

(** [new cls(...)]: the constructor the class declares or inherits runs;
    a class without one is built by the default constructor, which does
    nothing of its own. *)
Definition instantiate (env : surroundings) (cls : string) : handler console unit :=
  match lookup_method cls "constructor" with
  | Some (_, body) => exec env body
  | None => mret ()
  end.

(** Surroundings in which nothing answers, and surroundings in which
    every receiver is an instance of the class [binding] gives for it.
    Conditions are taken to be false and a template to evaluate to its
    own text. Calls are followed one level into the receiver (no call
    chain of the guide goes deeper into code that prints or throws). *)
Definition quiet : surroundings :=
  {| holds := λ _, Normal false; text_of := λ template, Normal template;
     answer := λ _ _, mret (); construct := λ _, mret () |}.

Definition wired (binding : string → string) : surroundings :=
  {| holds := λ _, Normal false; text_of := λ template, Normal template;
     answer := λ receiver m, invoke quiet (binding receiver) m;
     construct := instantiate quiet |}.

End Solid.

(** ** ListWithForms: one text input per record *)

Module ListWithForms.

(** The records have the shape of those of [DynamicList]. *)
Abbreviation Item := DynamicList.Item.
Abbreviation id := DynamicList.id.
Abbreviation text := DynamicList.text.

Definition initialItems : list Item :=
  [ DynamicList.mkItem (Int 1) "Item 1"; DynamicList.mkItem (Int 2) "Item 2" ].

Definition setItems (newItems : list Item) : handler (list Item) unit :=
  set_state newItems.

Definition handleChange (id0 : number) (newValue : string) : handler (list Item) unit :=
  items ← get_state;
  setItems ((λ item, if strict_eq (id item) id0
                     then DynamicList.mkItem (id item) newValue else item) <$> items).

End ListWithForms.

(** ** Sequences of clicks on a DynamicList

    Every click runs one handler against the state the previous click
    left, as the component is rendered again in between. *)

Module Clicks.

Inductive click : Type :=
  | Add
  | Remove (id0 : number)
  | Update (id0 : number) (newText : string).

Definition handle (c : click) : handler (list DynamicList.Item) unit :=
  match c with
  | Add => DynamicList.addItem
  | Remove id0 => DynamicList.removeItem id0
  | Update id0 newText => DynamicList.updateItem id0 newText
  end.

Fixpoint handle_all (clicks : list click) : handler (list DynamicList.Item) unit :=
  match clicks with
  | [] => mret ()
  | c :: rest => handle c ;; handle_all rest
  end.

(** The identifiers count upwards: integers from 1 to [bound], each
    smaller than the next. *)
Definition counting (bound : Z) (items : list DynamicList.Item) : Prop :=
  StronglySorted (λ a b, number_lt a b = true) (DynamicList.ids items) ∧
  Forall (λ n, ∃ z, n = Int z ∧ 1 ≤ z ≤ bound) (DynamicList.ids items).

(** Every identifier is -Infinity. *)
Definition sunk (items : list DynamicList.Item) : Prop :=
  Forall (λ item, DynamicList.id item = NegInfinity) items.

End Clicks.

(** ** DraggableList: reordering by drag and drop *)

Module DraggableList.

Abbreviation Item := DynamicList.Item.
Abbreviation id := DynamicList.id.
Abbreviation text := DynamicList.text.

(** What [parseInt] returns: [NaN], a number, or [Infinity]. *)
Inductive parsed : Type :=
  | NaN
  | Num (n : number)
  | PosInfinity.

(** A string of the data store: its UTF-16 code units. A drag may start
    anywhere, so the store can hold any text. *)
Definition jsstring : Type := list N.

(** The code units of the text the component writes itself: it is ASCII,
    one code unit per character. *)
Fixpoint code_units (s : string) : jsstring :=
  match s with
  | String c rest => Ascii.N_of_ascii c :: code_units rest
  | EmptyString => []
  end.

(** White space that [parseInt] skips, the white space and line
    terminators of ECMAScript: tab to carriage return, space, no-break
    space, ogham space mark, en quad to hair space, line and paragraph
    separator, narrow no-break space, medium mathematical space,
    ideographic space and the byte order mark. *)
Definition is_white_space (c : N) : bool :=
  bool_decide (9 ≤ c ≤ 13)%N || bool_decide (c = 32)%N ||
  bool_decide (c = 160)%N || bool_decide (c = 5760)%N ||
  bool_decide (8192 ≤ c ≤ 8202)%N ||
  bool_decide (c = 8232)%N || bool_decide (c = 8233)%N ||
  bool_decide (c = 8239)%N || bool_decide (c = 8287)%N ||
  bool_decide (c = 12288)%N || bool_decide (c = 65279)%N.

Fixpoint trim_start (s : jsstring) : jsstring :=
  match s with
  | c :: rest => if is_white_space c then trim_start rest else s
  | [] => s
  end.

(** The value of a code unit as a digit of the radix, if it is one:
    [0]-[9], [a]-[z] or [A]-[Z]. *)
Definition digit_value (radix : N) (c : N) : option N :=
  let v := if bool_decide (48 ≤ c ≤ 57)%N then Some (c - 48)%N
           else if bool_decide (97 ≤ c ≤ 122)%N then Some (c - 87)%N
           else if bool_decide (65 ≤ c ≤ 90)%N then Some (c - 55)%N
           else None in
  v ≫= λ d, if bool_decide (d < radix)%N then Some d else None.

(** The digits at the front of [s], read in [radix] onto [acc]; reading
    stops at the first code unit that is no digit. *)
Fixpoint parse_digits (radix : N) (s : jsstring) (acc : N) : N :=
  match s with
  | c :: rest =>
      match digit_value radix c with
      | Some d => parse_digits radix rest (acc * radix + d)%N
      | None => acc
      end
  | [] => acc
  end.

Definition starts_with_digit (radix : N) (s : jsstring) : bool :=
  match s with
  | c :: _ => bool_decide (is_Some (digit_value radix c))
  | [] => false
  end.

(** The number for an integer: out of the range of doubles it is an
    infinity, otherwise the nearest double. *)
Definition number_of_integer (z : Z) : parsed :=
  if bool_decide (2 ^ 1024 - 2 ^ 970 ≤ Z.abs z)
  then (if bool_decide (z < 0) then Num NegInfinity else PosInfinity)
  else Num (Int (round_to_double z)).

(** A sign in front: [-] (45) or [+] (43). *)
Definition read_sign (s : jsstring) : Z * jsstring :=
  match s with
  | c :: rest =>
      if bool_decide (c = 45)%N then (-1, rest)
      else if bool_decide (c = 43)%N then (1, rest)
      else (1, s)
  | [] => (1, s)
  end.

(** The prefix of radix 16: [0] (48), then [x] (120) or [X] (88). *)
Definition read_radix (s : jsstring) : N * jsstring :=
  match s with
  | c :: c' :: rest =>
      if bool_decide (c = 48)%N && (bool_decide (c' = 120)%N || bool_decide (c' = 88)%N)
      then (16%N, rest)
      else (10%N, s)
  | _ => (10%N, s)
  end.

(** [parseInt(s)] without a radix: leading white space is skipped, a sign
    is read, [0x] or [0X] switches to radix 16, and the digits that follow
    are read; with no digit the result is [NaN]. *)
Definition parseInt (s : jsstring) : parsed :=
  let '(sign, s) := read_sign (trim_start s) in
  let '(radix, s) := read_radix s in
  if starts_with_digit radix s
  then number_of_integer (sign * Z.of_N (parse_digits radix s 0))
  else NaN.

(** The string of a list of decimal digits, and the number they spell. *)
Definition digits_string (ds : list N) : string :=
  foldr (λ d s, String (pretty_N_char d) s) EmptyString ds.

Definition digits_value (acc : N) (ds : list N) : N :=
  foldl (λ a d, a * 10 + d)%N acc ds.

(** A string that starts with neither white space, nor a sign, nor the
    prefix of radix 16. *)
Definition plain_start (s : jsstring) : Prop :=
  match s with
  | c :: rest =>
      is_white_space c = false ∧ c ≠ 45%N ∧ c ≠ 43%N ∧
      (c = 48%N →
       match rest with
       | c' :: _ => c' ≠ 120%N ∧ c' ≠ 88%N
       | [] => True
       end)
  | [] => True
  end.

(** [n === p] for an identifier and the result of [parseInt]. *)
Definition same_number (n : number) (p : parsed) : bool :=
  match p with
  | Num m => strict_eq n m
  | _ => false
  end.

(** An array whose elements may be [undefined] ([None]). Assigning to
    index -1 does not store an element: it sets the property named "-1",
    absent on a fresh array. *)
Record array : Type := mkArray {
  elements : list (option Item);
  minus_one : option (option Item)
}.

Definition array_of (items : list Item) : array := mkArray (Some <$> items) None.

(** [a[i]]: [undefined] where nothing is stored. *)
Definition array_get (a : array) (i : Z) : option Item :=
  if bool_decide (0 ≤ i) then default None (elements a !! Z.to_nat i)
  else if bool_decide (i = -1) then default None (minus_one a)
  else None.

(** [a[i] = v]. An index past the end lengthens the array. ([findIndex]
    yields no index below -1, and none is stored here.) *)
Definition array_set (a : array) (i : Z) (v : option Item) : array :=
  if bool_decide (0 ≤ i) then
    if bool_decide (i < Z.of_nat (length (elements a)))
    then mkArray (<[Z.to_nat i := v]> (elements a)) (minus_one a)
    else mkArray (elements a ++ replicate (Z.to_nat i - length (elements a)) None ++ [v])
                 (minus_one a)
  else if bool_decide (i = -1) then mkArray (elements a) (Some v)
  else a.

(** [[...a]]: a fresh array with the elements of [a]. *)
Definition spread (a : array) : array := mkArray (elements a) None.

(** The state of a drag: the component's array, and the event's data
    store and default-prevented flag. *)
Record state : Type := mkState {
  items : array;
  dataTransfer : gmap string jsstring;
  defaultPrevented : bool
}.

Definition initialItems : array :=
  array_of [ DynamicList.mkItem (Int 1) "Draggable 1";
             DynamicList.mkItem (Int 2) "Draggable 2";
             DynamicList.mkItem (Int 3) "Draggable 3" ].

Definition setItems (newItems : array) : handler state unit :=
  λ s, (Normal (), mkState newItems (dataTransfer s) (defaultPrevented s)).

Definition setData (format : string) (data : jsstring) : handler state unit :=
  λ s, (Normal (), mkState (items s) (<[format := data]> (dataTransfer s)) (defaultPrevented s)).

(** [getData] gives the empty string for a format without data. *)
Definition getData (format : string) : handler state jsstring :=
  λ s, (Normal (default [] (dataTransfer s !! format)), s).

Definition preventDefault : handler state unit :=
  λ s, (Normal (), mkState (items s) (dataTransfer s) true).

(** Reading a property of [undefined] is a [TypeError]. *)
Definition undefined_id : string :=
  "TypeError: Cannot read properties of undefined (reading 'id')".

(** [a.findIndex(item => test(item.id))]: the first index whose element
    passes, or -1; looking at an [undefined] element throws. *)
Fixpoint findIndex_from (k : Z) (test : number → bool) (l : list (option Item))
    : completion Z :=
  match l with
  | [] => Normal (-1)
  | None :: _ => Throw undefined_id
  | Some item :: rest =>
      if test (id item) then Normal k else findIndex_from (k + 1) test rest
  end.

Definition findIndex (test : number → bool) (a : array) : handler state Z :=
  λ s, (findIndex_from 0 test (elements a), s).

Definition handleDragStart (id0 : number) : handler state unit :=
  setData "text/plain" (code_units (ToString id0)).

Definition handleDrop (targetId : number) : handler state unit :=
  preventDefault ;;
  data ← getData "text/plain";
  let draggedId := parseInt data in
  s ← get_state;
  let newItems := spread (items s) in
  draggedIndex ← findIndex (λ n, same_number n draggedId) (items s);
  targetIndex ← findIndex (λ n, strict_eq n targetId) (items s);
  (* Swap items *)
  let fromTarget := array_get newItems targetIndex in
  let fromDragged := array_get newItems draggedIndex in
  let newItems := array_set newItems draggedIndex fromTarget in
  let newItems := array_set newItems targetIndex fromDragged in
  setItems newItems.

(** What rendering reads: the key and the text of each element, in order.
    An [undefined] element throws. *)
Fixpoint render_items (l : list (option Item)) : completion (list (number * string)) :=
  match l with
  | [] => Normal []
  | None :: _ => Throw undefined_id
  | Some item :: rest =>
      match render_items rest with
      | Normal shown => Normal ((id item, text item) :: shown)
      | Throw msg => Throw msg
      end
  end.

Definition render (a : array) : completion (list (number * string)) :=
  render_items (elements a).

(** Every element is a record, and the identifiers of the elements. *)
Definition all_defined (a : array) : Prop := Forall is_Some (elements a).

Definition element_ids (a : array) : list number :=
  omap (fmap id) (elements a).

(** The index [findIndex] reports on an array without holes. *)
Definition index_of (test : number → bool) (l : list Item) : Z :=
  match list_find (λ item, test (id item) = true) l with
  | Some (i, _) => Z.of_nat i
  | None => -1
  end.

(** A drag from [draggedId] dropped on [targetId]. *)
Definition dragAndDrop (draggedId targetId : number) : handler state unit :=
  handleDragStart draggedId ;; handleDrop targetId.

End DraggableList.

(** * Properties *)

(** ** Order of numbers, and [Math.max] *)

Section MathMax.

Local Ltac by_cases :=
  repeat match goal with n : number |- _ => destruct n end;
  simpl in *; repeat case_bool_decide; try done; try lia.

Lemma number_lt_irrefl a : number_lt a a = false.
Proof. by_cases. Qed.

Lemma number_lt_le_trans a b c :
  number_lt a b = true → number_lt c b = false → number_lt c a = false.
Proof. by_cases. Qed.

Lemma number_le_trans a b c :
  number_lt b a = false → number_lt c b = false → number_lt c a = false.
Proof. by_cases. Qed.

Lemma isSafeInteger_Int n : isSafeInteger n = true → ∃ z, n = Int z.
Proof. destruct n; [eauto | done]. Qed.

(** Adding 1 to a safe integer is exact. *)
Lemma number_add_one m :
  isSafeInteger (Int m) = true → number_add (Int m) (Int 1) = Int (m + 1).
Proof.
  simpl. unfold MAX_SAFE_INTEGER, round_to_double. intros Hm%bool_decide_eq_true.
  rewrite bool_decide_eq_true_2; [done | lia].
Qed.

(** The running maximum started at [acc]: it is [acc] or an argument, and
    nothing exceeds it. *)
Lemma running_max acc l :
  let m := foldl max_step acc l in
  (m = acc ∨ m ∈ l) ∧ number_lt m acc = false ∧ Forall (λ x, number_lt m x = false) l.
Proof.
  revert acc. induction l as [|a l IH]; intros acc; simpl.
  - split_and!; [by left | apply number_lt_irrefl | constructor].
  - specialize (IH (max_step acc a)). simpl in IH.
    set (m := foldl max_step (max_step acc a) l) in *. clearbody m.
    destruct IH as (Hin & Hacc & Hall). unfold max_step in Hin, Hacc.
    destruct (number_lt acc a) eqn:E; split_and!.
    + destruct Hin as [->|Hin]; right; [left | by right].
    + by eapply number_lt_le_trans.
    + by constructor.
    + destruct Hin as [Hin|Hin]; [by left | right; by right].
    + done.
    + constructor; [by eapply number_le_trans | done].
Qed.

Lemma Math_max_integers l :
  l ≠ [] → Forall (λ x, isSafeInteger x = true) l →
  ∃ z, Math_max l = Int z ∧ isSafeInteger (Int z) = true ∧ is_maximum (Int z) l.
Proof.
  intros Hne Hsafe.
  destruct (running_max NegInfinity l) as (Hin & _ & Hall).
  change (foldl max_step NegInfinity l) with (Math_max l) in Hin, Hall.
  assert (Math_max l ∈ l) as Hmem.
  { destruct Hin as [Heq|]; [|done].
    destruct l as [|x l]; [done|].
    apply Forall_cons in Hsafe as [[z ->]%isSafeInteger_Int _], Hall as [Hx _].
    by rewrite Heq in Hx. }
  rewrite Forall_forall in Hsafe. pose proof (Hsafe _ Hmem) as Hm.
  destruct (isSafeInteger_Int _ Hm) as [z Hz].
  exists z. by rewrite <- Hz.
Qed.

End MathMax.

(** ** DynamicList *)

Section DynamicListProperties.

Import DynamicList.

Lemma run_addItem items :
  let newId := number_add (Math_max (ids items)) (Int 1) in
  run addItem items = (Normal (), items ++ [mkItem newId ("Item " +:+ ToString newId)]).
Proof. reflexivity. Qed.

Lemma run_removeItem id0 items :
  run (removeItem id0) items = (Normal (), filter (λ item, strict_ne (id item) id0) items).
Proof. reflexivity. Qed.

Lemma run_updateItem id0 newText items :
  run (updateItem id0 newText) items =
  (Normal (), (λ item, if strict_eq (id item) id0 then with_text item newText else item) <$> items).
Proof. reflexivity. Qed.

Lemma strict_ne_spec (a b : number) : strict_ne a b ↔ a ≠ b.
Proof. unfold strict_ne, strict_eq. by case_bool_decide. Qed.

Lemma afterEmptying_eq : afterEmptying = [mkItem NegInfinity "Item -Infinity"].
Proof. reflexivity. Qed.

(** Add on safe integers. For every non-empty sequence whose identifiers
    are all safe integers, Add completes and appends exactly one record at
    the end; its identifier is the maximum identifier of the sequence plus
    one, strictly greater than every identifier already there; its text is
    "Item " followed by the new identifier; the records already there are
    unchanged and keep their order. *)
Theorem addItem_appends_fresh items :
  items ≠ [] → safe_integer_ids items →
  add_appends_fresh items ∧
  ∃ z, is_maximum (Int z) (ids items) ∧
       run addItem items =
       (Normal (), items ++ [mkItem (Int (z + 1)) ("Item " +:+ pretty (z + 1))]).
Proof.
  intros Hne Hsafe.
  destruct (Math_max_integers (ids items)) as (z & Hmax & Hz & Hin & Hall).
  { by destruct items. }
  { unfold ids. by apply Forall_fmap. }
  assert (number_add (Math_max (ids items)) (Int 1) = Int (z + 1)) as HnewId
    by (rewrite Hmax; by apply number_add_one).
  assert (run addItem items =
          (Normal (), items ++ [mkItem (Int (z + 1)) ("Item " +:+ pretty (z + 1))])) as Hrun
    by (by rewrite run_addItem, HnewId).
  split; [|by exists z].
  exists (mkItem (Int (z + 1)) ("Item " +:+ pretty (z + 1))), (Int z).
  split_and!; [done | done | by rewrite number_add_one | | done].
  unfold ids in Hall. rewrite Forall_fmap in Hall.
  unfold safe_integer_ids in Hsafe. rewrite Forall_forall in Hsafe, Hall.
  apply Forall_forall. intros item Hitem.
  destruct (isSafeInteger_Int _ (Hsafe _ Hitem)) as [x Hx].
  specialize (Hall _ Hitem). simpl in Hall |- *. rewrite Hx in Hall |- *.
  simpl in Hall |- *. apply bool_decide_eq_false in Hall.
  apply bool_decide_eq_true. lia.
Qed.

(** The initial state of the component is such a sequence. *)
Lemma addItem_appends_fresh_witness :
  initialItems ≠ [] ∧ safe_integer_ids initialItems ∧
  add_appends_fresh initialItems ∧
  ∃ z, is_maximum (Int z) (ids initialItems) ∧
       run addItem initialItems =
       (Normal (), initialItems ++ [mkItem (Int (z + 1)) ("Item " +:+ pretty (z + 1))]).
Proof.
  assert (initialItems ≠ []) as Hne by discriminate.
  assert (safe_integer_ids initialItems) as Hint by (repeat constructor).
  split_and!; [exact Hne | exact Hint | ..];
    apply (addItem_appends_fresh initialItems Hne Hint).
Defined.

(** C1. What Add promises on a non-empty sequence fails on the state
    reached from the initial one by Remove, Remove, Add. That state holds
    one record, with identifier -Infinity; Add appends a second record
    with identifier -Infinity again, which is the maximum plus one as
    numbers add but not a greater identifier. *)
Theorem addItem_not_fresh_after_emptying :
  let items := [mkItem NegInfinity "Item -Infinity"] in
  items = afterEmptying ∧ items ≠ [] ∧
  run addItem items = (Normal (), items ++ [mkItem NegInfinity "Item -Infinity"]) ∧
  ¬ add_appends_fresh items.
Proof.
  split_and!; [reflexivity | discriminate | reflexivity |].
  intros (r & m & Hrun & _ & _ & Hgt & _).
  rewrite run_addItem in Hrun. simpl in Hrun.
  injection Hrun as <-.
  by apply Forall_cons in Hgt as [Hgt _].
Qed.

(** Past the safe integers the sum is rounded: at 2^53 the new identifier
    repeats the largest one. *)
Example round_to_double_ties :
  round_to_double <$> [2 ^ 53 + 1; 2 ^ 53 + 2; 2 ^ 53 + 3; - (2 ^ 53) - 1]
  = [2 ^ 53; 2 ^ 53 + 2; 2 ^ 53 + 4; - (2 ^ 53)].
Proof. reflexivity. Qed.

(** The worked example of the guide's own data: Add appends record 3,
    Remove(1) leaves records 2 and 3, Update(2, "X") rewrites record 2. *)
Example add_remove_update :
  let s1 := next_state addItem initialItems in
  let s2 := next_state (removeItem (Int 1)) s1 in
  let s3 := next_state (updateItem (Int 2) "X") s2 in
  s1 = [mkItem (Int 1) "Item 1"; mkItem (Int 2) "Item 2"; mkItem (Int 3) "Item 3"] ∧
  s2 = [mkItem (Int 2) "Item 2"; mkItem (Int 3) "Item 3"] ∧
  s3 = [mkItem (Int 2) "X"; mkItem (Int 3) "Item 3"].
Proof. by split_and!. Qed.

(** C2. On the empty sequence Add completes and leaves one record, with
    identifier -Infinity and text "Item -Infinity". So it does not
    produce identifier 1; it fails silently: no error is raised and a
    record is appended as always, but its identifier is no integer. *)
Theorem addItem_empty_fails_silently :
  run addItem [] = (Normal (), [mkItem NegInfinity "Item -Infinity"]) ∧
  ((∃ r, run addItem [] = (Normal (), [r]) ∧ id r = Int 1) ∨ fails_silently []).
Proof.
  split; [reflexivity|]. right.
  exists (mkItem NegInfinity "Item -Infinity"). split; [reflexivity|].
  intros z. discriminate.
Qed.

Lemma filter_all {A} (P : A → Prop) `{∀ x, Decision (P x)} (l : list A) :
  Forall P l → filter P l = l.
Proof.
  induction 1 as [|x l Hx _ IH]; [done|].
  by rewrite filter_cons_True, IH.
Qed.

(** C3. Update completes and leaves a sequence as long as the one it
    started from; at each position, a record whose identifier is [id0]
    has become the record with the same identifier and text [newText], and
    any other record is as it was; when no identifier is [id0] the
    sequence is unchanged. *)
Theorem updateItem_replaces_text items id0 newText :
  ∃ items',
    run (updateItem id0 newText) items = (Normal (), items') ∧
    length items' = length items ∧
    (∀ (i : nat) item, items !! i = Some item →
       items' !! i = Some (if decide (id item = id0) then mkItem (id item) newText else item)) ∧
    ((∀ item, item ∈ items → id item ≠ id0) → items' = items).
Proof.
  eexists. split; [apply run_updateItem|]. split_and!.
  - apply length_fmap.
  - intros i item Hi. rewrite list_lookup_fmap, Hi. simpl. f_equal.
    unfold strict_eq. by case_bool_decide; case_decide.
  - intros Hnone. induction items as [|item items IH]; [done|].
    rewrite fmap_cons. f_equal.
    + unfold strict_eq. case_bool_decide; [|done].
      exfalso. by eapply Hnone; [left|].
    + apply IH. intros x Hx. apply Hnone. by right.
Qed.

(** C4. Remove completes and leaves the records of the sequence whose
    identifier differs from [id0], each as often as before and in the
    order they had; the records left out all have identifier [id0]; when
    no identifier is [id0] the sequence is unchanged. *)
Theorem removeItem_keeps_others items id0 :
  ∃ items',
    run (removeItem id0) items = (Normal (), items') ∧
    items' `sublist_of` items ∧
    (∀ item, item ∈ items' ↔ item ∈ items ∧ id item ≠ id0) ∧
    (∃ removed, items' ++ removed ≡ₚ items ∧ Forall (λ item, id item = id0) removed) ∧
    ((∀ item, item ∈ items → id item ≠ id0) → items' = items).
Proof.
  eexists. split; [apply run_removeItem|]. split_and!.
  - apply sublist_filter.
  - intros item. rewrite list_elem_of_filter, strict_ne_spec. tauto.
  - exists (filter (λ item, ¬ strict_ne (id item) id0) items). split.
    + apply filter_app_complement.
    + apply Forall_forall. intros item [Hno _]%list_elem_of_filter.
      rewrite strict_ne_spec in Hno. by apply dec_stable.
  - intros Hnone. apply filter_all, Forall_forall.
    intros item Hitem. apply strict_ne_spec. by apply Hnone.
Qed.

(** C5. Removing the same identifier a second time changes nothing: the
    second Remove completes and leaves the state the first one left. *)
Theorem removeItem_idempotent items id0 :
  run (removeItem id0) (next_state (removeItem id0) items) =
  (Normal (), next_state (removeItem id0) items).
Proof.
  unfold next_state. rewrite !run_removeItem. simpl. f_equal.
  apply list_filter_filter_l. done.
Qed.

(** Remove, Update and Add on integers keep identifiers apart. *)
Lemma removeItem_NoDup items id0 :
  NoDup (ids items) → NoDup (ids (next_state (removeItem id0) items)).
Proof.
  intros Hnd. eapply sublist_NoDup; [exact Hnd|].
  unfold ids. apply fmap_sublist, sublist_filter.
Qed.

Lemma updateItem_ids items id0 newText :
  ids (next_state (updateItem id0 newText) items) = ids items.
Proof.
  unfold next_state, ids. rewrite run_updateItem. simpl.
  rewrite <- list_fmap_compose. apply list_fmap_ext.
  intros i item _. simpl. by destruct (strict_eq (id item) id0).
Qed.

Lemma updateItem_NoDup items id0 newText :
  NoDup (ids items) → NoDup (ids (next_state (updateItem id0 newText) items)).
Proof. by rewrite updateItem_ids. Qed.

Lemma ids_addItem items :
  ids (next_state addItem items) =
  ids items ++ [number_add (Math_max (ids items)) (Int 1)].
Proof. unfold next_state, ids. rewrite run_addItem. simpl. by rewrite fmap_app. Qed.

Lemma addItem_NoDup_safe_integers items :
  safe_integer_ids items → NoDup (ids items) → NoDup (ids (next_state addItem items)).
Proof.
  intros Hint Hnd. destruct items as [|item items]; [apply NoDup_singleton|].
  destruct (Math_max_integers (ids (item :: items))) as (z & Hmax & Hz & _ & Hall);
    [done | by apply Forall_fmap |].
  rewrite ids_addItem.
  apply NoDup_app. split_and!; [done | | apply NoDup_singleton].
  intros x Hx Hr. apply list_elem_of_singleton in Hr as ->.
  rewrite Forall_forall in Hall. specialize (Hall _ Hx).
  rewrite Hmax, (number_add_one z Hz) in Hall. simpl in Hall.
  case_bool_decide; [done | lia].
Qed.

(** C10. Keeping identifiers apart is not an invariant of Add. The state
    reached from the initial one by Remove, Remove, Add holds the single
    identifier -Infinity; Add then appends a second record with the same
    identifier. *)
Theorem addItem_duplicates_identifier :
  let items := [mkItem NegInfinity "Item -Infinity"] in
  items = afterEmptying ∧
  NoDup (ids items) ∧
  ids (next_state addItem items) = [NegInfinity; NegInfinity] ∧
  ¬ NoDup (ids (next_state addItem items)).
Proof.
  split_and!; [reflexivity | apply NoDup_singleton | reflexivity |].
  change (ids _) with [NegInfinity; NegInfinity].
  intros Hnd. apply NoDup_cons in Hnd as [Hnotin _]. apply Hnotin. left.
Qed.

End DynamicListProperties.

(** ** [Array.prototype.sort] *)

Section ArraySort.

Context {A : Type} (comparefn : A → A → Z).

Local Abbreviation le := (not_after comparefn).

Lemma sort_insert_Permutation x l : sort_insert comparefn x l ≡ₚ x :: l.
Proof.
  induction l as [|y l IH]; simpl; [done|].
  case_bool_decide; [done|]. rewrite IH. apply Permutation_swap.
Qed.

Lemma Array_sort_Permutation l : Array_sort comparefn l ≡ₚ l.
Proof.
  induction l as [|x l IH]; simpl; [done|].
  by rewrite sort_insert_Permutation, IH.
Qed.

Context `{!ConsistentComparator comparefn}.

Lemma sort_insert_sorted x l :
  StronglySorted le l → StronglySorted le (sort_insert comparefn x l).
Proof.
  induction 1 as [|y l Hsorted IH Hy]; simpl.
  - by repeat constructor.
  - case_bool_decide as Hxy.
    + constructor; [by constructor|]. constructor; [done|].
      eapply Forall_impl; [exact Hy|]. intros z Hyz.
      by apply (comparefn_trans x y z).
    + constructor; [done|].
      rewrite sort_insert_Permutation. constructor; [|done].
      assert (comparefn y x < 0) by (apply comparefn_flip; lia).
      unfold not_after. lia.
Qed.

Lemma Array_sort_sorted l : StronglySorted le (Array_sort comparefn l).
Proof.
  induction l as [|x l IH]; simpl; [constructor|].
  by apply sort_insert_sorted.
Qed.

(** Two elements that may each stand before the other compare equal. *)
Lemma le_both_ways a b : le a b → le b a → comparefn a b = 0.
Proof.
  unfold not_after. intros Hab Hba.
  destruct (decide (comparefn a b < 0)) as [Hlt|]; [|lia].
  apply comparefn_flip in Hlt. lia.
Qed.

End ArraySort.

(** Strings compared by character codes form a consistent comparison. *)
Section CodeCompare.

Lemma ascii_compare_trans a b c o :
  Ascii.compare a b = o → Ascii.compare b c = o → Ascii.compare a c = o.
Proof.
  unfold Ascii.compare. destruct o.
  - rewrite !N.compare_eq_iff. congruence.
  - rewrite !N.compare_lt_iff. lia.
  - rewrite !N.compare_gt_iff. lia.
Qed.

Lemma string_compare_not_gt_trans a b c :
  String.compare a b ≠ Gt → String.compare b c ≠ Gt → String.compare a c ≠ Gt.
Proof.
  revert b c. induction a as [|x a IH]; intros [|y b] [|z c]; simpl; try done.
  destruct (Ascii.compare x y) eqn:Hxy, (Ascii.compare y z) eqn:Hyz; try done.
  - apply Ascii.compare_eq_iff in Hxy as ->. rewrite Hyz. apply IH.
  - apply Ascii.compare_eq_iff in Hxy as ->. by rewrite Hyz.
  - apply Ascii.compare_eq_iff in Hyz as <-. by rewrite Hxy.
  - by rewrite (ascii_compare_trans x y z Lt).
Qed.

Global Instance codeCompare_consistent : ConsistentComparator codeCompare.
Proof.
  split.
  - intros a b. unfold codeCompare. rewrite (String.compare_antisym b a).
    destruct (String.compare a b); simpl; lia.
  - intros a b c. unfold codeCompare. intros Hab Hbc.
    pose proof (string_compare_not_gt_trans a b c) as Htrans.
    destruct (String.compare a b), (String.compare b c), (String.compare a c);
      try lia; exfalso; by apply Htrans.
Qed.

End CodeCompare.

(** ** SortableList *)

Section SortableListProperties.

Import SortableList.

Lemma run_filterByCategory c items :
  run (filterByCategory c) items =
  (Normal (filter (λ item, strict_eq (category item) c) items), items).
Proof. reflexivity. Qed.

Lemma run_sortItems localeCompare items :
  run (sortItems localeCompare) items =
  (Normal (), Array_sort (by_text localeCompare) items).
Proof. reflexivity. Qed.

Lemma category_eq_spec (a b : string) : strict_eq a b ↔ a = b.
Proof. unfold strict_eq. by rewrite bool_decide_spec. Qed.

(** C6. Filter completes with a result and leaves the state as it was.
    The result holds records of the sequence in the order they have
    there; each has category [c]; every record of the sequence with
    category [c] is in it; the records left out have another category. *)
Theorem filterByCategory_selects items c :
  ∃ result,
    run (filterByCategory c) items = (Normal result, items) ∧
    result `sublist_of` items ∧
    Forall (λ item, category item = c) result ∧
    (∀ item, item ∈ items → category item = c → item ∈ result) ∧
    (∃ rest, result ++ rest ≡ₚ items ∧ Forall (λ item, category item ≠ c) rest).
Proof.
  eexists. split; [apply run_filterByCategory|]. split_and!.
  - apply sublist_filter.
  - apply Forall_forall. intros item [Hc _]%list_elem_of_filter.
    by apply category_eq_spec.
  - intros item Hitem Hc. apply list_elem_of_filter. split; [|done].
    by apply category_eq_spec.
  - exists (filter (λ item, ¬ strict_eq (category item) c) items). split.
    + apply filter_app_complement.
    + apply Forall_forall. intros item [Hno _]%list_elem_of_filter.
      by rewrite category_eq_spec in Hno.
Qed.

Global Instance by_text_consistent localeCompare :
  ConsistentComparator localeCompare → ConsistentComparator (by_text localeCompare).
Proof.
  intros [Hflip Htrans]. split; unfold by_text.
  - intros a b. apply Hflip.
  - intros a b c. apply Htrans.
Qed.

(** C7. With a consistent [localeCompare], Sort completes and the state
    becomes a rearrangement of the sequence in which no record stands
    before one whose text compares smaller. The order the sequence had is
    not kept: when no two different records tie, every rearrangement of
    the sequence is sorted into the same state. *)
Theorem sortItems_sorts localeCompare items :
  ConsistentComparator localeCompare →
  ∃ sorted,
    run (sortItems localeCompare) items = (Normal (), sorted) ∧
    sorted ≡ₚ items ∧
    StronglySorted (not_after (by_text localeCompare)) sorted ∧
    (no_ties localeCompare items →
     ∀ items', items' ≡ₚ items →
       run (sortItems localeCompare) items' = (Normal (), sorted)).
Proof.
  intros Hcmp. eexists. split; [apply run_sortItems|]. split_and!.
  - apply Array_sort_Permutation.
  - by apply Array_sort_sorted, by_text_consistent.
  - intros Hties items' Hperm. rewrite run_sortItems. f_equal.
    apply (StronglySorted_unique_strong (not_after (by_text localeCompare))).
    + intros a b Ha Hb Hab Hba.
      rewrite Array_sort_Permutation in Ha, Hb. rewrite Hperm in Ha.
      apply Hties; [done | done |].
      by apply (le_both_ways (by_text localeCompare)).
    + by apply Array_sort_sorted, by_text_consistent.
    + by apply Array_sort_sorted, by_text_consistent.
    + by rewrite !Array_sort_Permutation.
Qed.

(** Comparison by character codes, on the initial records in reverse. *)
Lemma sortItems_sorts_witness :
  ConsistentComparator codeCompare ∧
  ∃ sorted,
    run (sortItems codeCompare) (reverse initialItems) = (Normal (), sorted) ∧
    sorted ≡ₚ reverse initialItems ∧
    StronglySorted (not_after (by_text codeCompare)) sorted ∧
    (no_ties codeCompare (reverse initialItems) →
     ∀ items', items' ≡ₚ reverse initialItems →
       run (sortItems codeCompare) items' = (Normal (), sorted)).
Proof.
  split; [exact codeCompare_consistent|].
  exact (sortItems_sorts codeCompare (reverse initialItems) codeCompare_consistent).
Defined.

(** Sorting the initial records from any order brings back Apple, Banana,
    Carrot. *)
Example sortItems_initial :
  next_state (sortItems codeCompare) (reverse initialItems) = initialItems.
Proof. reflexivity. Qed.

(** Records that tie keep the order they came in. *)
Example sortItems_stable :
  next_state (sortItems codeCompare)
    [mkItem (Int 1) "b" "x"; mkItem (Int 2) "a" "x"; mkItem (Int 3) "b" "y"; mkItem (Int 4) "a" "y"]
  = [mkItem (Int 2) "a" "x"; mkItem (Int 4) "a" "y"; mkItem (Int 1) "b" "x"; mkItem (Int 3) "b" "y"].
Proof. reflexivity. Qed.

Lemma sortItems_NoDup localeCompare items :
  NoDup (ids items) → NoDup (ids (next_state (sortItems localeCompare) items)).
Proof.
  intros Hnd. unfold next_state, ids. rewrite run_sortItems. simpl.
  by rewrite Array_sort_Permutation.
Qed.

End SortableListProperties.

(** ** Conditional rendering *)

Section ConditionalProperties.

Import Conditional.

Lemma strict_eq_string_spec v literal :
  strict_eq_string v literal = true ↔ v = VString literal.
Proof.
  destruct v; simpl; try (split; [discriminate | discriminate]).
  rewrite String.eqb_eq. split; congruence.
Qed.

Lemma DashboardIIFE_cases role :
  (DashboardIIFE role = div [h1 [Text "Welcome, Admin!"]] ↔ role = VString "admin") ∧
  (DashboardIIFE role = div [h1 [Text "Welcome, User!"]] ↔ role = VString "user") ∧
  (DashboardIIFE role = div [h1 [Text "Please sign in."]] ↔
     role ≠ VString "admin" ∧ role ≠ VString "user").
Proof.
  unfold DashboardIIFE.
  destruct (strict_eq_string role "admin") eqn:Ha;
    [apply strict_eq_string_spec in Ha as ->; simpl|];
    [split_and!; split; (done || by intros [])|].
  destruct (strict_eq_string role "user") eqn:Hu;
    [apply strict_eq_string_spec in Hu as ->; simpl|];
    [split_and!; split; (done || by intros [])|].
  assert (role ≠ VString "admin") by (intros ?%strict_eq_string_spec; congruence).
  assert (role ≠ VString "user") by (intros ?%strict_eq_string_spec; congruence).
  split_and!; split; done.
Qed.

Lemma GreetingIfStatement_cases isLoggedIn :
  (GreetingIfStatement isLoggedIn = h1 [Text "Welcome back!"] ↔ ToBoolean isLoggedIn = true) ∧
  (GreetingIfStatement isLoggedIn = h1 [Text "Please log in."] ↔ ToBoolean isLoggedIn = false).
Proof.
  unfold GreetingIfStatement. destruct (ToBoolean isLoggedIn); split; split; done.
Qed.

Lemma UserName_cases name :
  (ToBoolean name = true → UserName name = h1 [Val name]) ∧
  (ToBoolean name = false → UserName name = h1 [Text "Guest"]).
Proof. unfold UserName. by split; intros ->. Qed.

(** C9. Every function of the catalogue maps its input to one of a fixed
    few structures, the input itself being the only part that varies:
    DashboardIIFE gives the admin greeting exactly for the role "admin",
    the user greeting exactly for "user" and the sign-in prompt for
    every other role; GreetingIfStatement gives the welcome heading exactly
    for truthy inputs and the log-in heading exactly for falsy ones;
    UserName shows the name when it is truthy and "Guest" when it is
    falsy. *)
Theorem conditional_catalogue :
  (∀ role,
     (DashboardIIFE role = div [h1 [Text "Welcome, Admin!"]] ↔ role = VString "admin") ∧
     (DashboardIIFE role = div [h1 [Text "Welcome, User!"]] ↔ role = VString "user") ∧
     (DashboardIIFE role = div [h1 [Text "Please sign in."]] ↔
        role ≠ VString "admin" ∧ role ≠ VString "user")) ∧
  (∀ isLoggedIn,
     (GreetingIfStatement isLoggedIn = h1 [Text "Welcome back!"] ↔ ToBoolean isLoggedIn = true) ∧
     (GreetingIfStatement isLoggedIn = h1 [Text "Please log in."] ↔ ToBoolean isLoggedIn = false)) ∧
  (∀ name,
     (ToBoolean name = true → UserName name = h1 [Val name]) ∧
     (ToBoolean name = false → UserName name = h1 [Text "Guest"])) ∧
  (∀ v,
     GreetingIfStatement v ∈ [h1 [Text "Welcome back!"]; h1 [Text "Please log in."]] ∧
     GreetingTernary v ∈ [div [h1 [Text "Welcome back!"]]; div [h1 [Text "Please log in."]]] ∧
     NotificationLogicalAnd v ∈ [div [h2 [Text "You have new messages!"]]; div [Val v]] ∧
     UserName v ∈ [h1 [Val v]; h1 [Text "Guest"]] ∧
     DashboardIIFE v ∈ [div [h1 [Text "Welcome, Admin!"]]; div [h1 [Text "Welcome, User!"]];
                        div [h1 [Text "Please sign in."]]] ∧
     DashboardConditionalComponents v ∈ [div [Element (Component "AdminPanel") []];
                                         div [Element (Component "UserPanel") []]] ∧
     NotificationNull v ∈ [Val VNull; h2 [Text "You have new notifications!"]]).
Proof.
  split_and!.
  - apply DashboardIIFE_cases.
  - apply GreetingIfStatement_cases.
  - apply UserName_cases.
  - intros v.
    unfold GreetingIfStatement, GreetingTernary, NotificationLogicalAnd, UserName,
      DashboardIIFE, DashboardConditionalComponents, NotificationNull.
    destruct (ToBoolean v), (strict_eq_string v "admin"), (strict_eq_string v "user");
      simpl; split_and!; by repeat first [apply list_elem_of_here | apply list_elem_of_further].
Qed.

(** The falsy values, one of each kind. *)
Example falsy_values :
  ToBoolean <$> [VUndefined; VNull; VBoolean false; VNumber (S754_zero false);
                 VNumber (S754_zero true); VNumber S754_nan; VBigInt 0; VString EmptyString]
  = [false; false; false; false; false; false; false; false].
Proof. reflexivity. Qed.

Example truthy_values :
  ToBoolean <$> [VBoolean true; VNumber (S754_infinity true); VNumber (S754_finite false 1 0);
                 VBigInt (-1); VString "0"; VString "false"; VSymbol 0; VObject 0]
  = [true; true; true; true; true; true; true; true].
Proof. reflexivity. Qed.

End ConditionalProperties.

(** ** The classes of the SOLID guide *)

Section SolidProperties.

Import Solid.






(** The processor reaches the failure only through an instance of the
    base class. *)
Example processPayment_base :
  run (invoke (wired (λ _, "Payment")) "PaymentProcessor" "processPayment") [] =
  (Throw "process() method must be implemented", []).
Proof. reflexivity. Qed.

Example processPayment_paypal :
  run (invoke (wired (λ _, "PayPalPayment")) "PaymentProcessor" "processPayment") [] =
  (Normal (), ["Processing PayPal payment"]).
Proof. reflexivity. Qed.

Example Penguin_moves :
  lookup_method "Penguin" "move" = Some ("Bird", [ConsoleLog "Moving..."]).
Proof. reflexivity. Qed.

End SolidProperties.

(** ** DynamicList: how the handlers compose *)

Section DynamicListComposition.

Import DynamicList.

Lemma StronglySorted_sublist {A} (R : relation A) (k l : list A) :
  k `sublist_of` l → StronglySorted R l → StronglySorted R k.
Proof.
  induction 1 as [|x k l Hsub IH|x k l Hsub IH]; intros Hl; [done|..].
  - apply StronglySorted_inv in Hl as [Hl Hx]. constructor; [by apply IH|].
    apply Forall_forall. intros y Hy. rewrite Forall_forall in Hx.
    apply Hx. by eapply sublist_subseteq.
  - apply StronglySorted_inv in Hl as [Hl _]. by apply IH.
Qed.

Lemma Forall_of_sublist {A} (P : A → Prop) (k l : list A) :
  k `sublist_of` l → Forall P l → Forall P k.
Proof.
  intros Hsub Hl. apply Forall_forall. intros y Hy.
  rewrite Forall_forall in Hl. apply Hl. by eapply sublist_subseteq.
Qed.

(** The identifier Add hands out differs from every safe integer already
    in use. *)
Lemma new_id_unused items :
  safe_integer_ids items →
  Forall (λ item, id item ≠ number_add (Math_max (ids items)) (Int 1)) items.
Proof.
  intros Hsafe. destruct items as [|item0 items0]; [constructor|].
  set (items := item0 :: items0) in *.
  destruct (Math_max_integers (ids items)) as (z & Hmax & Hz & _ & Hall);
    [done | by apply Forall_fmap |].
  rewrite Hmax, (number_add_one z Hz).
  unfold ids in Hall. rewrite Forall_fmap in Hall.
  unfold safe_integer_ids in Hsafe. rewrite Forall_forall in Hsafe, Hall.
  apply Forall_forall. intros item Hitem.
  destruct (isSafeInteger_Int _ (Hsafe _ Hitem)) as [x Hx].
  specialize (Hall _ Hitem). simpl in Hall. rewrite Hx in Hall |- *.
  simpl in Hall. apply bool_decide_eq_false in Hall. intros [= ->]. lia.
Qed.

(** X1. Removing the record that Add has just appended brings back the
    sequence Add started from, for every sequence of safe-integer
    identifiers, the empty one included. *)
Theorem addItem_removeItem_restores items :
  safe_integer_ids items →
  ∃ r, run addItem items = (Normal (), items ++ [r]) ∧
       run (removeItem (id r)) (items ++ [r]) = (Normal (), items).
Proof.
  intros Hsafe. eexists. split; [apply run_addItem|].
  rewrite run_removeItem. f_equal. rewrite filter_app. simpl id.
  rewrite filter_all.
  - rewrite filter_cons_False, filter_nil; [by rewrite app_nil_r|].
    rewrite strict_ne_spec. by intros [].
  - eapply Forall_impl; [by apply new_id_unused|].
    intros item Hne. by apply strict_ne_spec.
Qed.

(** The initial records, and Add on them. *)
Lemma addItem_removeItem_restores_witness :
  safe_integer_ids initialItems ∧
  ∃ r, run addItem initialItems = (Normal (), initialItems ++ [r]) ∧
       run (removeItem (id r)) (initialItems ++ [r]) = (Normal (), initialItems).
Proof.
  assert (safe_integer_ids initialItems) as Hsafe by (repeat constructor).
  split; [exact Hsafe|].
  exact (addItem_removeItem_restores initialItems Hsafe).
Defined.

(** X2. Two Removes give the same state in either order. *)
Theorem removeItem_commutes items id1 id2 :
  next_state (removeItem id2) (next_state (removeItem id1) items) =
  next_state (removeItem id1) (next_state (removeItem id2) items).
Proof.
  unfold next_state. rewrite !run_removeItem. simpl.
  rewrite !list_filter_filter. apply list_filter_iff. tauto.
Qed.

(** X3. An Update followed by the Remove of the same identifier leaves
    what the Remove alone leaves: the new text is gone with the record. *)
Theorem updateItem_then_removeItem items id0 newText :
  next_state (removeItem id0) (next_state (updateItem id0 newText) items) =
  next_state (removeItem id0) items.
Proof.
  unfold next_state. rewrite !run_removeItem, run_updateItem. simpl.
  induction items as [|item items IH]; [done|].
  rewrite fmap_cons. unfold strict_eq at 1.
  case_bool_decide as Hid.
  - rewrite !filter_cons_False; [done | |].
    + rewrite strict_ne_spec. by intros [].
    + simpl. rewrite strict_ne_spec. by intros [].
  - rewrite !filter_cons_True; [by rewrite IH | |]; by apply strict_ne_spec.
Qed.

End DynamicListComposition.

(** ** Sequences of clicks *)

Section ClicksProperties.

Import DynamicList Clicks.

Lemma counting_mono bound bound' items :
  bound ≤ bound' → counting bound items → counting bound' items.
Proof.
  intros Hle [Hsorted Hrange]. split; [done|].
  eapply Forall_impl; [exact Hrange|].
  intros n (z & -> & Hz). exists z. split; [done | lia].
Qed.

Lemma counting_safe bound items :
  bound ≤ MAX_SAFE_INTEGER → counting bound items → safe_integer_ids items.
Proof.
  intros Hb [_ Hrange]. unfold ids in Hrange. rewrite Forall_fmap in Hrange.
  eapply Forall_impl; [exact Hrange|].
  intros item (z & Hid & Hz). simpl in Hid. rewrite Hid. simpl.
  apply bool_decide_eq_true. unfold MAX_SAFE_INTEGER in *. lia.
Qed.

Lemma counting_NoDup bound items : counting bound items → NoDup (ids items).
Proof.
  intros [Hsorted _]. induction Hsorted as [|n l _ IH Hn]; constructor; [|done].
  intros Hin. rewrite Forall_forall in Hn. specialize (Hn _ Hin).
  by rewrite number_lt_irrefl in Hn.
Qed.

Lemma Math_max_sunk l :
  Forall (λ n, n = NegInfinity) l → Math_max l = NegInfinity.
Proof.
  intros Hl. destruct (running_max NegInfinity l) as ([Heq|Hin] & _); [done|].
  rewrite Forall_forall in Hl. by apply Hl.
Qed.

Lemma addItem_sunk items : sunk items → sunk (next_state addItem items).
Proof.
  intros Hsunk. unfold next_state. rewrite run_addItem. simpl.
  rewrite Math_max_sunk; [|unfold ids; by apply Forall_fmap].
  apply Forall_app. split; [done | by repeat constructor].
Qed.

Lemma addItem_counting bound items :
  bound < MAX_SAFE_INTEGER → items ≠ [] → counting bound items →
  counting (bound + 1) (next_state addItem items).
Proof.
  intros Hb Hne Hcount.
  pose proof (counting_safe bound items ltac:(lia) Hcount) as Hsafe.
  destruct Hcount as [Hsorted Hrange].
  destruct (Math_max_integers (ids items)) as (z & Hmax & Hz & Hin & Hall);
    [by destruct items | by apply Forall_fmap |].
  assert (1 ≤ z ≤ bound) as Hzb.
  { rewrite Forall_forall in Hrange. by destruct (Hrange _ Hin) as (? & [= <-] & ?). }
  unfold counting. rewrite ids_addItem, Hmax, (number_add_one z Hz). split.
  - apply StronglySorted_app_2; [|done | by repeat constructor].
    intros a b Ha ->%list_elem_of_singleton.
    rewrite Forall_forall in Hall, Hrange.
    destruct (Hrange _ Ha) as (x & -> & _). specialize (Hall _ Ha).
    simpl in Hall |- *. apply bool_decide_eq_false in Hall.
    apply bool_decide_eq_true. lia.
  - apply Forall_app. split.
    + eapply Forall_impl; [exact Hrange|].
      intros n (x & -> & Hx). exists x. split; [done | lia].
    + repeat constructor. exists (z + 1). split; [done | lia].
Qed.

Lemma removeItem_counting bound items id0 :
  counting bound items → counting bound (next_state (removeItem id0) items).
Proof.
  intros [Hsorted Hrange].
  assert (ids (next_state (removeItem id0) items) `sublist_of` ids items) as Hsub
    by (unfold ids; apply fmap_sublist, sublist_filter).
  split; [by eapply StronglySorted_sublist | by eapply Forall_of_sublist].
Qed.

Lemma removeItem_sunk items id0 : sunk items → sunk (next_state (removeItem id0) items).
Proof. intros Hsunk. eapply Forall_of_sublist; [apply sublist_filter | done]. Qed.

Lemma updateItem_sunk items id0 newText :
  sunk items → sunk (next_state (updateItem id0 newText) items).
Proof.
  unfold sunk. intros Hsunk.
  assert (Forall (λ n, n = NegInfinity) (ids (next_state (updateItem id0 newText) items)))
    as Hids by (rewrite updateItem_ids; unfold ids; by apply Forall_fmap).
  unfold ids in Hids. by apply Forall_fmap in Hids.
Qed.

(** One click keeps the state counting or sunk. *)
Lemma handle_keeps bound items c :
  bound < MAX_SAFE_INTEGER →
  counting bound items ∨ sunk items →
  run (handle c) items = (Normal (), next_state (handle c) items) ∧
  (counting (bound + 1) (next_state (handle c) items) ∨ sunk (next_state (handle c) items)).
Proof.
  intros Hb Hinv. split; [by destruct c|].
  destruct c as [|id0|id0 newText]; simpl.
  - destruct items as [|item items]; [right; by repeat constructor|].
    destruct Hinv as [Hcount|Hsunk];
      [left; by apply addItem_counting | right; by apply addItem_sunk].
  - destruct Hinv as [Hcount|Hsunk]; [left | right; by apply removeItem_sunk].
    apply (counting_mono bound); [lia | by apply removeItem_counting].
  - destruct Hinv as [[Hsorted Hrange]|Hsunk]; [left | right; by apply updateItem_sunk].
    apply (counting_mono bound); [lia|]. unfold counting.
    by rewrite updateItem_ids.
Qed.

(** X4. Whatever the clicks, the state stays of one of two kinds: the
    identifiers are integers counting upwards from 1, each smaller than
    the next and so all different, or every identifier is -Infinity.
    This holds as long as the clicks are too few for an identifier to
    leave the safe integers. *)
Theorem clicks_keep_counting_or_sunk clicks bound items :
  counting bound items ∨ sunk items →
  bound + Z.of_nat (length clicks) ≤ MAX_SAFE_INTEGER →
  ∃ items',
    run (handle_all clicks) items = (Normal (), items') ∧
    ((counting (bound + Z.of_nat (length clicks)) items' ∧ NoDup (ids items'))
     ∨ sunk items').
Proof.
  revert bound items. induction clicks as [|c clicks IH]; intros bound items Hinv Hlen.
  - exists items. split; [done|]. simpl. rewrite Z.add_0_r.
    destruct Hinv as [Hcount|Hsunk]; [left | by right].
    split; [done | by eapply counting_NoDup].
  - rewrite length_cons, Nat2Z.inj_succ in Hlen.
    destruct (handle_keeps bound items c ltac:(lia) Hinv) as [Hrun Hinv'].
    destruct (IH (bound + 1) _ Hinv' ltac:(lia)) as (items' & Hrun' & Hfinal).
    exists items'. split.
    + change (run (handle_all (c :: clicks)) items) with
        (match run (handle c) items with
         | (Normal a, s') => run (handle_all clicks) s'
         | (Throw msg, s') => (Throw msg, s')
         end).
      by rewrite Hrun.
    + rewrite length_cons, Nat2Z.inj_succ.
      by replace (bound + Z.succ (Z.of_nat (length clicks)))
        with (bound + 1 + Z.of_nat (length clicks)) by lia.
Qed.

(** From the initial records: empty the list, add twice, rename. *)
Lemma clicks_keep_counting_or_sunk_witness :
  let clicks := [Add; Remove (Int 1); Remove (Int 2); Remove (Int 3); Add; Add;
                 Update NegInfinity "x"] in
  (counting 2 initialItems ∨ sunk initialItems) ∧
  2 + Z.of_nat (length clicks) ≤ MAX_SAFE_INTEGER ∧
  ∃ items',
    run (handle_all clicks) initialItems = (Normal (), items') ∧
    ((counting (2 + Z.of_nat (length clicks)) items' ∧ NoDup (ids items'))
     ∨ sunk items').
Proof.
  intros clicks.
  assert (counting 2 initialItems ∨ sunk initialItems) as Hinv.
  { left. split; repeat constructor; simpl; eauto with lia. }
  assert (2 + Z.of_nat (length clicks) ≤ MAX_SAFE_INTEGER) as Hlen by done.
  split_and!; [exact Hinv | exact Hlen |].
  exact (clicks_keep_counting_or_sunk clicks 2 initialItems Hinv Hlen).
Defined.

Example clicks_sink :
  next_state (handle_all [Remove (Int 1); Remove (Int 2); Add; Add]) initialItems
  = [mkItem NegInfinity "Item -Infinity"; mkItem NegInfinity "Item -Infinity"].
Proof. reflexivity. Qed.

End ClicksProperties.

(** ** ListWithForms *)

Section ListWithFormsProperties.

Import ListWithForms.

Lemma run_handleChange id0 newValue items :
  run (handleChange id0 newValue) items =
  (Normal (), (λ item, if strict_eq (id item) id0
                       then DynamicList.mkItem (id item) newValue else item) <$> items).
Proof. reflexivity. Qed.

(** X5. Typing into an input keeps every identifier where it is, so the
    keys of the rendered inputs do not move; afterwards each record with
    the edited identifier shows the typed value, and every other record is
    still there as it was. *)
Theorem handleChange_shows_value items id0 newValue :
  ∃ items',
    run (handleChange id0 newValue) items = (Normal (), items') ∧
    id <$> items' = id <$> items ∧
    (∀ item, item ∈ items' → id item = id0 → text item = newValue) ∧
    (∀ item, item ∈ items → id item ≠ id0 → item ∈ items').
Proof.
  eexists. split; [apply run_handleChange|]. split_and!.
  - rewrite <- list_fmap_compose. apply list_fmap_ext.
    intros i item _. simpl. by destruct (strict_eq (id item) id0).
  - intros item (item0 & -> & _)%list_elem_of_fmap. unfold strict_eq.
    case_bool_decide; [done|]. by intros ?.
  - intros item Hitem Hne. apply list_elem_of_fmap. exists item. split; [|done].
    unfold strict_eq. by rewrite bool_decide_eq_false_2.
Qed.

(** X6. Of two values typed into the same input the later one stays: the
    state is the one the later change alone would give. *)
Theorem handleChange_last_wins items id0 first second :
  next_state (handleChange id0 second) (next_state (handleChange id0 first) items) =
  next_state (handleChange id0 second) items.
Proof.
  unfold next_state. rewrite !run_handleChange. simpl.
  rewrite <- list_fmap_compose. apply list_fmap_ext.
  intros i item _. simpl. unfold strict_eq.
  repeat (case_bool_decide; simpl in * ); congruence.
Qed.

(** X7. Changes to inputs of different identifiers do not interfere: they
    give the same state in either order. *)
Theorem handleChange_commutes items id1 id2 value1 value2 :
  id1 ≠ id2 →
  next_state (handleChange id2 value2) (next_state (handleChange id1 value1) items) =
  next_state (handleChange id1 value1) (next_state (handleChange id2 value2) items).
Proof.
  intros Hne. unfold next_state. rewrite !run_handleChange. simpl.
  rewrite <- !list_fmap_compose. apply list_fmap_ext.
  intros i item _. simpl. unfold strict_eq.
  destruct (bool_decide (id item = id1)) eqn:E1, (bool_decide (id item = id2)) eqn:E2;
    simpl; rewrite ?E1, ?E2; try done.
  apply bool_decide_eq_true in E1, E2. congruence.
Qed.

(** The two inputs of the initial form. *)
Lemma handleChange_commutes_witness :
  Int 1 ≠ Int 2 ∧
  next_state (handleChange (Int 2) "b") (next_state (handleChange (Int 1) "a") initialItems) =
  next_state (handleChange (Int 1) "a") (next_state (handleChange (Int 2) "b") initialItems).
Proof.
  assert (Int 1 ≠ Int 2) as Hne by discriminate.
  split; [exact Hne|].
  exact (handleChange_commutes initialItems (Int 1) (Int 2) "a" "b" Hne).
Defined.

End ListWithFormsProperties.

(** ** SortableList: sorting again, and filtering what was sorted *)

Section SortAndFilter.

Context {A : Type} (comparefn : A → A → Z) `{!ConsistentComparator comparefn}.
Context (P : A → Prop) `{!∀ x, Decision (P x)}.

Lemma sort_insert_front x l :
  Forall (not_after comparefn x) l → sort_insert comparefn x l = x :: l.
Proof.
  destruct l as [|y l]; [done|]. intros [Hxy _]%Forall_cons. simpl.
  by rewrite bool_decide_eq_true_2.
Qed.

(** A sorted array is left as it is. *)
Lemma Array_sort_sorted_id l :
  StronglySorted (not_after comparefn) l → Array_sort comparefn l = l.
Proof.
  induction 1 as [|x l _ IH Hx]; [done|]. simpl.
  change (foldr (sort_insert comparefn) [] l) with (Array_sort comparefn l).
  rewrite IH. by apply sort_insert_front.
Qed.

Lemma filter_sort_insert_drop x l :
  ¬ P x → filter P (sort_insert comparefn x l) = filter P l.
Proof.
  intros Hx. induction l as [|y l IH]; simpl.
  - by rewrite filter_cons_False.
  - case_bool_decide.
    + by rewrite filter_cons_False.
    + rewrite !(filter_cons _ y), IH. done.
Qed.

Lemma filter_sort_insert_keep x l :
  P x → StronglySorted (not_after comparefn) l →
  filter P (sort_insert comparefn x l) = sort_insert comparefn x (filter P l).
Proof.
  intros Hx. induction 1 as [|y l Hsorted IH Hy]; simpl.
  - by rewrite filter_cons_True.
  - case_bool_decide as Hxy.
    + rewrite filter_cons_True by done. symmetry. apply sort_insert_front.
      apply Forall_forall. intros z [_ Hz]%list_elem_of_filter.
      apply elem_of_cons in Hz as [->|Hz]; [done|].
      rewrite Forall_forall in Hy. by apply (comparefn_trans x y z), Hy.
    + rewrite !(filter_cons _ y), IH. case_decide; [|done].
      simpl. by rewrite bool_decide_eq_false_2.
Qed.

(** Filtering a sorted array gives the sorted filtered array. *)
Lemma filter_Array_sort l :
  filter P (Array_sort comparefn l) = Array_sort comparefn (filter P l).
Proof.
  induction l as [|x l IH]; [done|]. simpl.
  change (foldr (sort_insert comparefn) [] l) with (Array_sort comparefn l).
  rewrite (filter_cons _ x). case_decide.
  - rewrite filter_sort_insert_keep by (first [done | by apply Array_sort_sorted]).
    simpl. by rewrite IH.
  - by rewrite filter_sort_insert_drop.
Qed.

End SortAndFilter.

Section SortableListComposition.

Import SortableList.

(** X8. Whatever [localeCompare] answers, consistent or not, Sort only
    rearranges: the state holds the same records as before, as many of
    them, and identifiers that were all different still are. *)
Theorem sortItems_rearranges localeCompare items :
  next_state (sortItems localeCompare) items ≡ₚ items ∧
  length (next_state (sortItems localeCompare) items) = length items ∧
  (NoDup (ids items) → NoDup (ids (next_state (sortItems localeCompare) items))).
Proof.
  assert (next_state (sortItems localeCompare) items ≡ₚ items) as Hperm
    by apply Array_sort_Permutation.
  split_and!; [done | by rewrite Hperm |].
  unfold ids. by rewrite Hperm.
Qed.

(** X9. With a consistent [localeCompare], sorting a second time changes
    nothing. *)
Theorem sortItems_idempotent localeCompare items :
  ConsistentComparator localeCompare →
  run (sortItems localeCompare) (next_state (sortItems localeCompare) items) =
  (Normal (), next_state (sortItems localeCompare) items).
Proof.
  intros Hcmp. unfold next_state. rewrite !run_sortItems. simpl. f_equal.
  apply Array_sort_sorted_id; [by apply by_text_consistent ..|].
  by apply Array_sort_sorted, by_text_consistent.
Qed.

(** Character codes, on records entered out of order. *)
Lemma sortItems_idempotent_witness :
  ConsistentComparator codeCompare ∧
  run (sortItems codeCompare) (next_state (sortItems codeCompare) (reverse initialItems)) =
  (Normal (), next_state (sortItems codeCompare) (reverse initialItems)).
Proof.
  split; [exact codeCompare_consistent|].
  exact (sortItems_idempotent codeCompare (reverse initialItems) codeCompare_consistent).
Defined.

(** X10. With a consistent [localeCompare], what Filter returns once the
    list has been sorted is what sorting would make of what Filter
    returned before, and it is in text order: the records shown under
    one category follow the sorted list. *)
Theorem filterByCategory_after_sortItems localeCompare items c :
  ConsistentComparator localeCompare →
  ∃ before after,
    run (filterByCategory c) items = (Normal before, items) ∧
    run (filterByCategory c) (next_state (sortItems localeCompare) items) =
      (Normal after, next_state (sortItems localeCompare) items) ∧
    after = Array_sort (by_text localeCompare) before ∧
    StronglySorted (not_after (by_text localeCompare)) after.
Proof.
  intros Hcmp. do 2 eexists.
  split; [apply run_filterByCategory|]. split; [apply run_filterByCategory|].
  assert (ConsistentComparator (by_text localeCompare)) by by apply by_text_consistent.
  unfold next_state. rewrite run_sortItems. simpl.
  rewrite filter_Array_sort by done. split; [done|].
  by apply Array_sort_sorted.
Qed.

(** Fruits of the initial records, entered out of order. *)
Lemma filterByCategory_after_sortItems_witness :
  ConsistentComparator codeCompare ∧
  ∃ before after,
    run (filterByCategory "fruit") (reverse initialItems) = (Normal before, reverse initialItems) ∧
    run (filterByCategory "fruit") (next_state (sortItems codeCompare) (reverse initialItems)) =
      (Normal after, next_state (sortItems codeCompare) (reverse initialItems)) ∧
    after = Array_sort (by_text codeCompare) before ∧
    StronglySorted (not_after (by_text codeCompare)) after.
Proof.
  split; [exact codeCompare_consistent|].
  exact (filterByCategory_after_sortItems codeCompare (reverse initialItems) "fruit"
           codeCompare_consistent).
Defined.

End SortableListComposition.

(** ** DraggableList: the identifier survives the data store *)

Section ParseInt.

Import DraggableList.

Local Ltac digit_cases d H :=
  assert (d = 0 ∨ d = 1 ∨ d = 2 ∨ d = 3 ∨ d = 4 ∨ d = 5 ∨ d = 6 ∨ d = 7 ∨ d = 8 ∨ d = 9)%N
    as H by lia;
  destruct H as [->|[->|[->|[->|[->|[->|[->|[->|[->| ->]]]]]]]]].

Lemma digit_value_pretty d :
  (d < 10)%N → digit_value 10 (Ascii.N_of_ascii (pretty_N_char d)) = Some d.
Proof. intros Hd. digit_cases d H; reflexivity. Qed.

Lemma code_units_digits d ds :
  code_units (digits_string (d :: ds))
  = Ascii.N_of_ascii (pretty_N_char d) :: code_units (digits_string ds).
Proof. reflexivity. Qed.

Lemma parse_digits_digits ds acc :
  Forall (λ d, d < 10)%N ds →
  parse_digits 10 (code_units (digits_string ds)) acc = digits_value acc ds.
Proof.
  intros Hds. revert acc. induction Hds as [|d ds Hd _ IH]; intros acc; [done|].
  rewrite code_units_digits. simpl. by rewrite digit_value_pretty, IH.
Qed.

Lemma digits_string_app ds d s :
  digits_string (ds ++ [d]) +:+ s = digits_string ds +:+ String (pretty_N_char d) s.
Proof.
  unfold digits_string. induction ds as [|d' ds IH]; [done|].
  change (String (pretty_N_char d') (foldr (λ d s, String (pretty_N_char d) s) EmptyString (ds ++ [d]) +:+ s)
          = String (pretty_N_char d') (foldr (λ d s, String (pretty_N_char d) s) EmptyString ds
                                       +:+ String (pretty_N_char d) s)).
  by rewrite IH.
Qed.

Lemma digits_string_alone ds : digits_string ds +:+ EmptyString = digits_string ds.
Proof.
  unfold digits_string. induction ds as [|d ds IH]; [done|].
  change (String (pretty_N_char d) (foldr (λ d s, String (pretty_N_char d) s) EmptyString ds
                                    +:+ EmptyString)
          = String (pretty_N_char d) (foldr (λ d s, String (pretty_N_char d) s) EmptyString ds)).
  by rewrite IH.
Qed.

(** The decimal digits that [pretty] writes in front of [s]. *)
Lemma pretty_N_go_digits x s :
  ∃ ds, Forall (λ d, d < 10)%N ds ∧
        pretty_N_go x s = digits_string ds +:+ s ∧
        digits_value 0 ds = x ∧
        (x ≠ 0%N → ds ≠ []).
Proof.
  revert s. induction (N.lt_wf_0 x) as [x _ IH]. intros s.
  destruct (decide (x = 0%N)) as [->|Hx].
  - exists []. by rewrite pretty_N_go_0.
  - rewrite pretty_N_go_step by lia.
    destruct (IH (x / 10)%N ltac:(apply N.div_lt; lia)
                (String (pretty_N_char (x mod 10)) s)) as (ds & Hds & Heq & Hval & _).
    exists (ds ++ [x mod 10])%N. split_and!.
    + apply Forall_app. split; [done|]. repeat constructor. by apply N.mod_lt.
    + by rewrite digits_string_app.
    + unfold digits_value in *. rewrite foldl_app. simpl. rewrite Hval.
      rewrite (N.div_mod' x 10) at 3. lia.
    + by destruct ds.
Qed.

(** A plain start has no sign and keeps radix 10. *)
Lemma read_sign_plain s : plain_start s → read_sign s = (1, s).
Proof.
  destruct s as [|c rest]; [reflexivity|]. intros (_ & Hminus & Hplus & _).
  unfold read_sign. by rewrite !bool_decide_eq_false_2.
Qed.

Lemma read_radix_plain s : plain_start s → read_radix s = (10%N, s).
Proof.
  destruct s as [|c [|c' rest]]; [reflexivity..|]. intros (_ & _ & _ & Hzero).
  unfold read_radix. destruct (decide (c = 48%N)) as [->|Hc].
  - destruct (Hzero eq_refl) as [Hx HX].
    by rewrite (bool_decide_eq_false_2 (c' = 120)%N), (bool_decide_eq_false_2 (c' = 88)%N).
  - by rewrite (bool_decide_eq_false_2 (c = 48)%N).
Qed.

Lemma trim_start_plain s : plain_start s → trim_start s = s.
Proof. destruct s as [|c rest]; [reflexivity|]. intros (Hws & _). simpl. by rewrite Hws. Qed.

Lemma parseInt_plain_start s :
  plain_start s →
  parseInt s = if starts_with_digit 10 s
               then number_of_integer (Z.of_N (parse_digits 10 s 0))
               else NaN.
Proof.
  intros Hplain. unfold parseInt.
  rewrite trim_start_plain, read_sign_plain by done. cbv beta iota zeta.
  rewrite read_radix_plain by done. by rewrite Z.mul_1_l.
Qed.

Lemma parseInt_minus s :
  plain_start s →
  parseInt (45%N :: s) = if starts_with_digit 10 s
                         then number_of_integer (- Z.of_N (parse_digits 10 s 0))
                         else NaN.
Proof.
  intros Hplain. unfold parseInt.
  change (read_sign (trim_start (45%N :: s))) with (-1, s). cbv beta iota zeta.
  rewrite read_radix_plain by done.
  by replace (-1 * Z.of_N (parse_digits 10 s 0)) with (- Z.of_N (parse_digits 10 s 0)) by lia.
Qed.

Lemma plain_start_digits ds :
  Forall (λ d, d < 10)%N ds → plain_start (code_units (digits_string ds)).
Proof.
  destruct 1 as [|d ds Hd Hds]; [done|].
  rewrite code_units_digits.
  digit_cases d H; (split_and!; [reflexivity | done | done |]); try done.
  intros _. destruct Hds as [|d' ds Hd' Hds]; [done|].
  rewrite code_units_digits.
  digit_cases d' H'; by split.
Qed.

Lemma starts_with_digit_digits ds :
  ds ≠ [] → Forall (λ d, d < 10)%N ds →
  starts_with_digit 10 (code_units (digits_string ds)) = true.
Proof.
  intros Hne Hds. destruct Hds as [|d ds Hd Hds]; [done|].
  rewrite code_units_digits.
  simpl. rewrite digit_value_pretty by done. by apply bool_decide_eq_true.
Qed.

(** A safe integer is its own double, far from the infinities. *)
Lemma number_of_integer_safe z :
  isSafeInteger (Int z) = true → number_of_integer z = Num (Int z).
Proof.
  simpl. unfold MAX_SAFE_INTEGER. intros Hz%bool_decide_eq_true.
  assert (2 ^ 53 < 2 ^ 1024 - 2 ^ 970) as Hbig by done.
  unfold number_of_integer, round_to_double.
  rewrite bool_decide_eq_false_2 by lia. by rewrite bool_decide_eq_true_2 by lia.
Qed.

Lemma pretty_positive_digits p :
  ∃ ds, ds ≠ [] ∧ Forall (λ d, d < 10)%N ds ∧
        pretty (N.pos p) = digits_string ds ∧ digits_value 0 ds = N.pos p.
Proof.
  destruct (pretty_N_go_digits (N.pos p) EmptyString) as (ds & Hds & Heq & Hval & Hne).
  exists ds. split_and!; [by apply Hne | done | | done].
  unfold pretty, pretty_N. rewrite decide_False by done.
  by rewrite Heq, digits_string_alone.
Qed.

(** X11. What [handleDragStart] stores for a safe-integer identifier,
    [parseInt] in [handleDrop] reads back as that identifier. *)
Theorem parseInt_ToString n :
  isSafeInteger n = true → parseInt (code_units (ToString n)) = Num n.
Proof.
  intros Hn. destruct (isSafeInteger_Int n Hn) as [z ->].
  rewrite <- (number_of_integer_safe z Hn). destruct z as [|p|p]; [reflexivity|..].
  - destruct (pretty_positive_digits p) as (ds & Hne & Hds & Heq & Hval).
    change (ToString (Int (Z.pos p))) with (pretty (N.pos p)). rewrite Heq.
    rewrite parseInt_plain_start by by apply plain_start_digits.
    rewrite starts_with_digit_digits, parse_digits_digits, Hval by done. done.
  - destruct (pretty_positive_digits p) as (ds & Hne & Hds & Heq & Hval).
    change (ToString (Int (Z.neg p))) with (String "-" (pretty (N.pos p))). rewrite Heq.
    change (code_units (String "-" (digits_string ds)))
      with (45%N :: code_units (digits_string ds)).
    rewrite parseInt_minus by by apply plain_start_digits.
    rewrite starts_with_digit_digits, parse_digits_digits, Hval by done. done.
Qed.

(** Identifier 42. *)
Lemma parseInt_ToString_witness :
  isSafeInteger (Int 42) = true ∧ parseInt (code_units (ToString (Int 42))) = Num (Int 42).
Proof.
  assert (isSafeInteger (Int 42) = true) as Hn by reflexivity.
  split; [exact Hn|]. exact (parseInt_ToString (Int 42) Hn).
Defined.

(** -Infinity does not survive: its string has no digit in front. *)
Example parseInt_NegInfinity : parseInt (code_units (ToString NegInfinity)) = NaN.
Proof. reflexivity. Qed.

Example parseInt_examples :
  parseInt ∘ code_units <$>
    ["42"; "  -17px"; "0x1F"; "abc"; EmptyString; "9007199254740993"; "+5"; "-0x10"]
  = [Num (Int 42); Num (Int (-17)); Num (Int 31); NaN; NaN;
     Num (Int 9007199254740992); Num (Int 5); Num (Int (-16))].
Proof. reflexivity. Qed.

(** White space beyond ASCII is skipped as well: a no-break space, an
    ideographic space and a line separator in front of the digit 2; a
    zero-width space (8203) is no white space. *)
Example parseInt_unicode_white_space :
  parseInt <$> [[160; 50]; [12288; 8232; 50]; [65279; 9; 45; 50]; [8203; 50]]%N
  = [Num (Int 2); Num (Int 2); Num (Int (-2)); NaN].
Proof. reflexivity. Qed.

End ParseInt.

(** ** DraggableList: dropping *)

Section DragAndDrop.

Import DraggableList.

Lemma findIndex_from_defined k test (l : list Item) :
  findIndex_from k test (Some <$> l) =
  Normal (match list_find (λ item, test (id item) = true) l with
          | Some (i, _) => k + Z.of_nat i
          | None => -1
          end).
Proof.
  revert k. induction l as [|item l IH]; intros k; [done|].
  rewrite fmap_cons. simpl. destruct (test (id item)) eqn:Htest.
  - rewrite decide_True by done. simpl. by rewrite Z.add_0_r.
  - rewrite decide_False by (by intros ?). rewrite IH.
    destruct (list_find _ l) as [[i x]|]; simpl; [f_equal; lia | done].
Qed.

Lemma run_handleDrop s l targetId :
  elements (items s) = Some <$> l →
  run (handleDrop targetId) s =
  let draggedId := parseInt (default [] (dataTransfer s !! "text/plain")) in
  let d := index_of (λ n, same_number n draggedId) l in
  let t := index_of (λ n, strict_eq n targetId) l in
  let fresh := spread (items s) in
  (Normal (),
   mkState (array_set (array_set fresh d (array_get fresh t)) t (array_get fresh d))
           (dataTransfer s) true).
Proof.
  destruct s as [a dt dp]. simpl. intros Hl. unfold run, handleDrop.
  cbv beta iota zeta delta [mbind handler_bind preventDefault getData get_state findIndex
                            setItems items dataTransfer defaultPrevented].
  rewrite Hl, !findIndex_from_defined. unfold index_of.
  by repeat (destruct (list_find _ l) as [[? ?]|]).
Qed.
Lemma index_of_found (l : list Item) x i item :
  list_find (λ item, id item = x) l = Some (i, item) →
  index_of (λ n, strict_eq n x) l = Z.of_nat i.
Proof.
  intros Hfind. unfold index_of.
  rewrite (list_find_ext _ (λ item, id item = x)), Hfind; [done|].
  intros y. unfold strict_eq. by rewrite bool_decide_eq_true.
Qed.

Lemma index_of_missing test (l : list Item) :
  Forall (λ item, test (id item) = false) l → index_of test l = -1.
Proof.
  intros Hnone. unfold index_of.
  assert (list_find (λ item, test (id item) = true) l = None) as ->; [|done].
  apply list_find_None. eapply Forall_impl; [exact Hnone|].
  intros item Hitem. by rewrite Hitem.
Qed.

Lemma array_get_defined (l : list Item) prop (i : nat) :
  array_get (mkArray (Some <$> l) prop) (Z.of_nat i) = l !! i.
Proof.
  unfold array_get. simpl. rewrite bool_decide_eq_true_2 by lia.
  rewrite Nat2Z.id, list_lookup_fmap. by destruct (l !! i).
Qed.

Lemma array_set_within (elems : list (option Item)) prop (i : nat) v :
  (i < length elems)%nat →
  array_set (mkArray elems prop) (Z.of_nat i) v = mkArray (<[i := v]> elems) prop.
Proof.
  intros Hi. unfold array_set. simpl.
  rewrite !bool_decide_eq_true_2 by lia. by rewrite Nat2Z.id.
Qed.

(** A drag that starts on a record of the list and is dropped on one. *)
Lemma run_dragAndDrop_found s l draggedId targetId d t dragged target :
  elements (items s) = Some <$> l →
  isSafeInteger draggedId = true →
  list_find (λ item, id item = draggedId) l = Some (d, dragged) →
  list_find (λ item, id item = targetId) l = Some (t, target) →
  run (dragAndDrop draggedId targetId) s =
  (Normal (),
   mkState (array_of (<[t := dragged]> (<[d := target]> l)))
           (<["text/plain" := code_units (ToString draggedId)]> (dataTransfer s)) true).
Proof.
  intros Hl Hsafe Hd Ht.
  change (run (dragAndDrop draggedId targetId) s) with
    (run (handleDrop targetId)
       (mkState (items s) (<["text/plain" := code_units (ToString draggedId)]> (dataTransfer s))
                (defaultPrevented s))).
  rewrite (run_handleDrop _ l) by done. simpl.
  rewrite lookup_insert_eq. simpl. rewrite (parseInt_ToString _ Hsafe).
  change (λ n, same_number n (Num draggedId)) with (λ n, strict_eq n draggedId).
  rewrite (index_of_found l draggedId d dragged Hd), (index_of_found l targetId t target Ht).
  apply list_find_Some in Hd as (Hd & _), Ht as (Ht & _).
  unfold spread. rewrite Hl, !array_get_defined, Hd, Ht.
  rewrite array_set_within by (rewrite length_fmap; by eapply lookup_lt_Some).
  rewrite array_set_within
    by (rewrite length_insert, length_fmap; by eapply lookup_lt_Some).
  unfold array_of. by rewrite !list_fmap_insert.
Qed.

(** X12. A drag started on one record and dropped on another exchanges
    the two: the record first found with the dragged identifier and the
    one first found with the target identifier trade places, every other
    position keeps its record, and the list holds the same records as
    before. The handler completes and marks the event as handled. *)
Theorem dragAndDrop_swaps s l draggedId targetId d t dragged target :
  elements (items s) = Some <$> l →
  isSafeInteger draggedId = true →
  list_find (λ item, id item = draggedId) l = Some (d, dragged) →
  list_find (λ item, id item = targetId) l = Some (t, target) →
  ∃ l',
    run (dragAndDrop draggedId targetId) s =
      (Normal (),
       mkState (array_of l') (<["text/plain" := code_units (ToString draggedId)]> (dataTransfer s)) true) ∧
    l' !! t = Some dragged ∧
    (d ≠ t → l' !! d = Some target) ∧
    (∀ j, j ≠ d → j ≠ t → l' !! j = l !! j) ∧
    l' ≡ₚ l.
Proof.
  intros Hl Hsafe Hd Ht. exists (<[t := dragged]> (<[d := target]> l)).
  split; [by eapply run_dragAndDrop_found|].
  apply list_find_Some in Hd as (Hd & _), Ht as (Ht & _).
  pose proof (lookup_lt_Some _ _ _ Hd). pose proof (lookup_lt_Some _ _ _ Ht).
  split_and!.
  - apply list_lookup_insert_eq. by rewrite length_insert.
  - intros Hne. rewrite list_lookup_insert_ne by done. by apply list_lookup_insert_eq.
  - intros j Hjd Hjt. by rewrite !list_lookup_insert_ne.
  - by apply Permutation_insert_swap.
Qed.

(** The first record of the initial list dropped on the third. *)
Lemma dragAndDrop_swaps_witness :
  let s := mkState initialItems ∅ false in
  let l := [ DynamicList.mkItem (Int 1) "Draggable 1";
             DynamicList.mkItem (Int 2) "Draggable 2";
             DynamicList.mkItem (Int 3) "Draggable 3" ] in
  let dragged := DynamicList.mkItem (Int 1) "Draggable 1" in
  let target := DynamicList.mkItem (Int 3) "Draggable 3" in
  elements (items s) = Some <$> l ∧
  isSafeInteger (Int 1) = true ∧
  list_find (λ item, id item = Int 1) l = Some (0%nat, dragged) ∧
  list_find (λ item, id item = Int 3) l = Some (2%nat, target) ∧
  ∃ l',
    run (dragAndDrop (Int 1) (Int 3)) s =
      (Normal (),
       mkState (array_of l') (<["text/plain" := code_units (ToString (Int 1))]> (dataTransfer s)) true) ∧
    l' !! 2%nat = Some dragged ∧
    (0%nat ≠ 2%nat → l' !! 0%nat = Some target) ∧
    (∀ j, j ≠ 0%nat → j ≠ 2%nat → l' !! j = l !! j) ∧
    l' ≡ₚ l.
Proof.
  intros s l dragged target.
  assert (elements (items s) = Some <$> l) as Hl by reflexivity.
  assert (isSafeInteger (Int 1) = true) as Hsafe by reflexivity.
  assert (list_find (λ item, id item = Int 1) l = Some (0%nat, dragged)) as Hd by reflexivity.
  assert (list_find (λ item, id item = Int 3) l = Some (2%nat, target)) as Ht by reflexivity.
  split_and!; [exact Hl | exact Hsafe | exact Hd | exact Ht |].
  exact (dragAndDrop_swaps s l (Int 1) (Int 3) 0%nat 2%nat dragged target Hl Hsafe Hd Ht).
Defined.

(** X13. A record dropped on itself stays where it is: the list is
    unchanged. *)
Theorem dragAndDrop_onto_itself s l id0 i item :
  elements (items s) = Some <$> l →
  isSafeInteger id0 = true →
  list_find (λ item, id item = id0) l = Some (i, item) →
  run (dragAndDrop id0 id0) s =
  (Normal (),
   mkState (array_of l) (<["text/plain" := code_units (ToString id0)]> (dataTransfer s)) true).
Proof.
  intros Hl Hsafe Hfind.
  rewrite (run_dragAndDrop_found s l id0 id0 i i item item) by done.
  apply list_find_Some in Hfind as (Hi & _).
  by rewrite !list_insert_id by (by rewrite ?list_insert_id).
Qed.

(** The second record of the initial list. *)
Lemma dragAndDrop_onto_itself_witness :
  let s := mkState initialItems ∅ false in
  let l := [ DynamicList.mkItem (Int 1) "Draggable 1";
             DynamicList.mkItem (Int 2) "Draggable 2";
             DynamicList.mkItem (Int 3) "Draggable 3" ] in
  let item := DynamicList.mkItem (Int 2) "Draggable 2" in
  elements (items s) = Some <$> l ∧
  isSafeInteger (Int 2) = true ∧
  list_find (λ item, id item = Int 2) l = Some (1%nat, item) ∧
  run (dragAndDrop (Int 2) (Int 2)) s =
  (Normal (),
   mkState (array_of l) (<["text/plain" := code_units (ToString (Int 2))]> (dataTransfer s)) true).
Proof.
  intros s l item.
  assert (elements (items s) = Some <$> l) as Hl by reflexivity.
  assert (isSafeInteger (Int 2) = true) as Hsafe by reflexivity.
  assert (list_find (λ item, id item = Int 2) l = Some (1%nat, item)) as Hfind by reflexivity.
  split_and!; [exact Hl | exact Hsafe | exact Hfind |].
  exact (dragAndDrop_onto_itself s l (Int 2) 1%nat item Hl Hsafe Hfind).
Defined.

Lemma list_find_unique (l : list Item) x i item :
  NoDup (id <$> l) → l !! i = Some item → id item = x →
  list_find (λ item, id item = x) l = Some (i, item).
Proof.
  intros Hnd Hi Hx. apply list_find_Some. split_and!; [done | done |].
  intros j y Hj Hlt Hy. assert (j = i); [|lia].
  apply (NoDup_lookup (id <$> l) j i x); [done | |];
    rewrite list_lookup_fmap; [rewrite Hj | rewrite Hi]; simpl; congruence.
Qed.

(** X14. With identifiers that are all different, the same drag and drop
    done a second time puts every record back where it was. *)
Theorem dragAndDrop_twice s l draggedId targetId d t dragged target :
  elements (items s) = Some <$> l →
  NoDup (id <$> l) →
  isSafeInteger draggedId = true →
  list_find (λ item, id item = draggedId) l = Some (d, dragged) →
  list_find (λ item, id item = targetId) l = Some (t, target) →
  ∃ s1,
    run (dragAndDrop draggedId targetId) s = (Normal (), s1) ∧
    run (dragAndDrop draggedId targetId) s1 =
    (Normal (),
     mkState (array_of l) (<["text/plain" := code_units (ToString draggedId)]> (dataTransfer s)) true).
Proof.
  intros Hl Hnd Hsafe Hd Ht. eexists. split; [by eapply run_dragAndDrop_found|].
  set (l' := <[t := dragged]> (<[d := target]> l)).
  apply list_find_Some in Hd as (Hd & Hdid & _), Ht as (Ht & Htid & _).
  pose proof (lookup_lt_Some _ _ _ Hd) as Hdlt. pose proof (lookup_lt_Some _ _ _ Ht) as Htlt.
  assert (l' ≡ₚ l) as Hperm by by apply Permutation_insert_swap.
  assert (NoDup (id <$> l')) as Hnd' by by rewrite Hperm.
  assert (l' !! t = Some dragged) as Ht'
    by (apply list_lookup_insert_eq; by rewrite length_insert).
  assert (l' !! d = Some target) as Hd'.
  { destruct (decide (d = t)) as [->|Hne]; [congruence|].
    unfold l'. rewrite list_lookup_insert_ne by done. by apply list_lookup_insert_eq. }
  rewrite (run_dragAndDrop_found _ l' draggedId targetId t d dragged target);
    [| done | done | by apply list_find_unique | by apply list_find_unique].
  simpl. rewrite insert_insert_eq. do 3 f_equal.
  apply list_eq. intros j. unfold l'.
  rewrite !list_lookup_insert, !length_insert.
  repeat case_decide; destruct_and?; simplify_eq; try done; lia.
Qed.

(** The first record of the initial list dropped on the third, twice. *)
Lemma dragAndDrop_twice_witness :
  let s := mkState initialItems ∅ false in
  let l := [ DynamicList.mkItem (Int 1) "Draggable 1";
             DynamicList.mkItem (Int 2) "Draggable 2";
             DynamicList.mkItem (Int 3) "Draggable 3" ] in
  let dragged := DynamicList.mkItem (Int 1) "Draggable 1" in
  let target := DynamicList.mkItem (Int 3) "Draggable 3" in
  elements (items s) = Some <$> l ∧
  NoDup (id <$> l) ∧
  isSafeInteger (Int 1) = true ∧
  list_find (λ item, id item = Int 1) l = Some (0%nat, dragged) ∧
  list_find (λ item, id item = Int 3) l = Some (2%nat, target) ∧
  ∃ s1,
    run (dragAndDrop (Int 1) (Int 3)) s = (Normal (), s1) ∧
    run (dragAndDrop (Int 1) (Int 3)) s1 =
    (Normal (),
     mkState (array_of l) (<["text/plain" := code_units (ToString (Int 1))]> (dataTransfer s)) true).
Proof.
  intros s l dragged target.
  assert (elements (items s) = Some <$> l) as Hl by reflexivity.
  assert (NoDup (id <$> l)) as Hnd
    by (apply (bool_decide_eq_true_1 (NoDup (id <$> l))); reflexivity).
  assert (isSafeInteger (Int 1) = true) as Hsafe by reflexivity.
  assert (list_find (λ item, id item = Int 1) l = Some (0%nat, dragged)) as Hd by reflexivity.
  assert (list_find (λ item, id item = Int 3) l = Some (2%nat, target)) as Ht by reflexivity.
  split_and!; [exact Hl | exact Hnd | exact Hsafe | exact Hd | exact Ht |].
  exact (dragAndDrop_twice s l (Int 1) (Int 3) 0%nat 2%nat dragged target Hl Hnd Hsafe Hd Ht).
Defined.

Lemma render_items_hole elems : None ∈ elems → render_items elems = Throw undefined_id.
Proof.
  induction elems as [|[item|] elems IH]; [by intros ?%elem_of_nil | | done].
  intros [|Hin]%elem_of_cons; [done|]. simpl. by rewrite IH.
Qed.

(** X15. When the data dropped names no record of the list (a drag that
    did not start on the list, or text that is no number), the drop
    still completes, but the record dropped on is no longer in the list:
    its slot holds [undefined], the record itself sits under the
    property -1, and rendering the list throws a TypeError. *)
Theorem handleDrop_foreign s l targetId t target :
  elements (items s) = Some <$> l →
  Forall (λ item, same_number (id item)
            (parseInt (default [] (dataTransfer s !! "text/plain"))) = false) l →
  list_find (λ item, id item = targetId) l = Some (t, target) →
  ∃ broken,
    run (handleDrop targetId) s = (Normal (), mkState broken (dataTransfer s) true) ∧
    elements broken = <[t := None]> (Some <$> l) ∧
    elements broken !! t = Some None ∧
    minus_one broken = Some (Some target) ∧
    render broken = Throw undefined_id.
Proof.
  intros Hl Hnone Ht. eexists. split.
  { rewrite (run_handleDrop _ l) by done. cbv zeta.
    rewrite (index_of_missing _ l Hnone), (index_of_found l targetId t target Ht).
    reflexivity. }
  apply list_find_Some in Ht as (Ht & _). pose proof (lookup_lt_Some _ _ _ Ht) as Hlt.
  unfold spread. rewrite Hl, array_get_defined, Ht.
  change (array_get (mkArray (Some <$> l) None) (-1)) with (@None Item).
  change (array_set (mkArray (Some <$> l) None) (-1) (Some target))
    with (mkArray (Some <$> l) (Some (Some target))).
  rewrite array_set_within by by rewrite length_fmap.
  assert (<[t := None]> (Some <$> l) !! t = Some None) as Hhole
    by (apply list_lookup_insert_eq; by rewrite length_fmap).
  split_and!; [done | done | done |].
  apply render_items_hole. simpl. by eapply list_elem_of_lookup_2.
Qed.

(** Text dragged in from elsewhere, dropped on the third record. *)
Lemma handleDrop_foreign_witness :
  let s := mkState initialItems {["text/plain" := code_units "hello"]} false in
  let l := [ DynamicList.mkItem (Int 1) "Draggable 1";
             DynamicList.mkItem (Int 2) "Draggable 2";
             DynamicList.mkItem (Int 3) "Draggable 3" ] in
  let target := DynamicList.mkItem (Int 3) "Draggable 3" in
  elements (items s) = Some <$> l ∧
  Forall (λ item, same_number (id item)
            (parseInt (default [] (dataTransfer s !! "text/plain"))) = false) l ∧
  list_find (λ item, id item = Int 3) l = Some (2%nat, target) ∧
  ∃ broken,
    run (handleDrop (Int 3)) s = (Normal (), mkState broken (dataTransfer s) true) ∧
    elements broken = <[2%nat := None]> (Some <$> l) ∧
    elements broken !! 2%nat = Some None ∧
    minus_one broken = Some (Some target) ∧
    render broken = Throw undefined_id.
Proof.
  intros s l target.
  assert (elements (items s) = Some <$> l) as Hl by reflexivity.
  assert (Forall (λ item, same_number (id item)
            (parseInt (default [] (dataTransfer s !! "text/plain"))) = false) l)
    as Hnone by (by repeat constructor).
  assert (list_find (λ item, id item = Int 3) l = Some (2%nat, target)) as Ht by reflexivity.
  split_and!; [exact Hl | exact Hnone | exact Ht |].
  exact (handleDrop_foreign s l (Int 3) 2%nat target Hl Hnone Ht).
Defined.

(** Data that names a record behind a no-break space is no foreign data:
    dropped on the first record it exchanges the first two records. *)
Example handleDrop_no_break_space :
  run (handleDrop (Int 1)) (mkState initialItems {["text/plain" := [160; 50]%N]} false) =
  (Normal (),
   mkState (array_of [ DynamicList.mkItem (Int 2) "Draggable 2";
                       DynamicList.mkItem (Int 1) "Draggable 1";
                       DynamicList.mkItem (Int 3) "Draggable 3" ])
           {["text/plain" := [160; 50]%N]} true).
Proof. reflexivity. Qed.

End DragAndDrop.

(** ** Conditional rendering: how the patterns relate *)

Section ConditionalRelations.

Import Conditional.

(** X16. The ternary greeting is the if-statement greeting inside a
    [div]. *)
Theorem GreetingTernary_wraps isLoggedIn :
  GreetingTernary isLoggedIn = div [GreetingIfStatement isLoggedIn].
Proof. unfold GreetingTernary, GreetingIfStatement. by destruct (ToBoolean isLoggedIn). Qed.

(** X17. The two dashboards agree on who is an admin, and on nothing
    else: DashboardConditionalComponents shows the admin panel exactly
    when DashboardIIFE greets an admin, and shows the user panel for every
    other role, also for the roles DashboardIIFE asks to sign in. *)
Theorem dashboards_agree_on_admin role :
  (DashboardConditionalComponents role = div [Element (Component "AdminPanel") []] ↔
   DashboardIIFE role = div [h1 [Text "Welcome, Admin!"]]) ∧
  (DashboardConditionalComponents role = div [Element (Component "UserPanel") []] ↔
   role ≠ VString "admin") ∧
  (DashboardIIFE role = div [h1 [Text "Please sign in."]] →
   DashboardConditionalComponents role = div [Element (Component "UserPanel") []]).
Proof.
  destruct (DashboardIIFE_cases role) as (Hadmin & _ & Hsign).
  unfold DashboardConditionalComponents.
  destruct (strict_eq_string role "admin") eqn:Ha.
  - apply strict_eq_string_spec in Ha as ->.
    split_and!; [by rewrite Hadmin | split; [done | by intros []] |].
    rewrite Hsign. by intros [[] _].
  - assert (role ≠ VString "admin") by (intros ?%strict_eq_string_spec; congruence).
    split_and!; [by rewrite Hadmin | done | done].
Qed.

(** X18. A falsy input comes out of NotificationLogicalAnd as the child
    of the [div], so two different falsy inputs give two different
    results (0 stays 0, null stays null), while NotificationNull answers
    all of them with null. A truthy input gives each its heading. *)
Theorem falsy_passes_through v w :
  (ToBoolean v = false →
     NotificationLogicalAnd v = div [Val v] ∧ NotificationNull v = Val VNull) ∧
  (ToBoolean v = false → ToBoolean w = false →
     NotificationLogicalAnd v = NotificationLogicalAnd w → v = w) ∧
  (ToBoolean v = true →
     NotificationLogicalAnd v = div [h2 [Text "You have new messages!"]] ∧
     NotificationNull v = h2 [Text "You have new notifications!"]).
Proof.
  unfold NotificationLogicalAnd, NotificationNull. split_and!.
  - by intros ->.
  - intros -> ->. by intros [= ->].
  - by intros ->.
Qed.

End ConditionalRelations.

(** ** The classes of the SOLID guide: delegation and substitution *)

Section SolidRelations.

Import Solid.

Lemma exec_single_call env receiver m out :
  run (exec env [MethodCall receiver m]) out = run (answer env receiver m) out.
Proof.
  unfold run. simpl. unfold mbind, handler_bind, mret, handler_ret.
  by destruct (answer env receiver m out) as [[[]|msg] out'].
Qed.

(** X19. The methods that hand a call on (PaymentProcessor.processPayment,
    the print, scan and fax of AllInOnePrinter, saveUser of UserService
    and of UserServiceBad) do exactly what the receiver does with the
    call: they print what it prints and throw what it throws. *)
Theorem delegation_is_transparent cls m receiver m' env out :
  (cls, m, (receiver, m')) ∈ delegations →
  run (invoke env cls m) out = run (answer env receiver m') out.
Proof.
  unfold delegations. rewrite !elem_of_cons, elem_of_nil.
  intros [H|[H|[H|[H|[H|[H|[]]]]]]]; injection H as -> -> -> ->;
    apply exec_single_call.
Qed.

(** A processor handed a PayPal payment, and one handed the base class. *)
Lemma delegation_is_transparent_witness :
  ("PaymentProcessor", "processPayment", ("payment", "process")) ∈ delegations ∧
  run (invoke (wired (λ _, "PayPalPayment")) "PaymentProcessor" "processPayment") [] =
  run (answer (wired (λ _, "PayPalPayment")) "payment" "process") [].
Proof.
  assert (("PaymentProcessor", "processPayment", ("payment", "process")) ∈ delegations)
    as Hin by apply list_elem_of_here.
  split; [exact Hin|].
  exact (delegation_is_transparent _ _ _ _ (wired (λ _, "PayPalPayment")) [] Hin).
Defined.

(** X20. createTask builds the task, saves it and then notifies, in that
    order: when saving throws, the error is the result and the
    notification is never sent; when saving completes, the result is that
    of the notification. *)
Theorem createTask_saves_then_notifies env out out0 :
  run (construct env "Task") out = (Normal (), out0) →
  (∀ msg out1,
     run (answer env "this.taskRepository" "save") out0 = (Throw msg, out1) →
     run (invoke env "TaskService" "createTask") out = (Throw msg, out1)) ∧
  (∀ out1,
     run (answer env "this.taskRepository" "save") out0 = (Normal (), out1) →
     run (invoke env "TaskService" "createTask") out =
     run (answer env "this.notificationService" "notify") out1).
Proof.
  unfold run. intros Hnew.
  split; [intros msg out1 Hsave | intros out1 Hsave].
  all: change (invoke env "TaskService" "createTask" out) with
    (exec env [New "Task"; Assign "task";
               MethodCall "this.taskRepository" "save";
               MethodCall "this.notificationService" "notify"; Return] out).
  all: simpl; unfold mbind, handler_bind, mret, handler_ret; rewrite Hnew, Hsave; try done.
  all: by destruct (answer env "this.notificationService" "notify" out1) as [[[]|msg] out2].
Qed.

(** A service wired to the Mongo repository and the e-mail notifier. *)
Lemma createTask_saves_then_notifies_witness :
  let env := wired (λ receiver,
                      if String.eqb receiver "this.taskRepository" then "MongoTaskRepository"
                      else "EmailNotificationService") in
  run (construct env "Task") [] = (Normal (), []) ∧
  (∀ msg out1,
     run (answer env "this.taskRepository" "save") [] = (Throw msg, out1) →
     run (invoke env "TaskService" "createTask") [] = (Throw msg, out1)) ∧
  (∀ out1,
     run (answer env "this.taskRepository" "save") [] = (Normal (), out1) →
     run (invoke env "TaskService" "createTask") [] =
     run (answer env "this.notificationService" "notify") out1).
Proof.
  intros env.
  assert (run (construct env "Task") [] = (Normal (), [])) as Hnew by reflexivity.
  split; [exact Hnew|].
  exact (createTask_saves_then_notifies env [] [] Hnew).
Defined.

Example createTask_prints :
  run (invoke (wired (λ receiver,
                        if String.eqb receiver "this.taskRepository" then "MongoTaskRepository"
                        else "EmailNotificationService"))
              "TaskService" "createTask") [] =
  (Normal (), ["Saving task to MongoDB"; "Sending email to ${user.email}: ${message}"]).
Proof. reflexivity. Qed.

Example createTask_abstract_repository :
  run (invoke (wired (λ receiver,
                        if String.eqb receiver "this.taskRepository" then "TaskRepository"
                        else "EmailNotificationService"))
              "TaskService" "createTask") [] =
  (Throw "Not implemented", []).
Proof. reflexivity. Qed.

(** X21. PaymentProcessorBad prints at most one line. For a payment
    of none of the three known types it prints nothing and completes: the
    payment is ignored without a word. It completes whenever its
    conditions evaluate; it fails only when evaluating one of them fails
    (reading [payment.type] off a missing payment is a TypeError), and
    then nothing has been printed. *)
Theorem processPayment_bad_ignores_unknown env out :
  ∃ lines,
    (run (invoke env "PaymentProcessorBad" "processPayment") out).2 = out ++ lines ∧
    (length lines ≤ 1)%nat ∧
    (holds env "payment.type === 'creditCard'" = Normal false →
     holds env "payment.type === 'paypal'" = Normal false →
     holds env "payment.type === 'bitcoin'" = Normal false →
     run (invoke env "PaymentProcessorBad" "processPayment") out = (Normal (), out)) ∧
    ((∀ cond, ∃ b, holds env cond = Normal b) →
     (run (invoke env "PaymentProcessorBad" "processPayment") out).1 = Normal ()) ∧
    (∀ msg,
       (run (invoke env "PaymentProcessorBad" "processPayment") out).1 = Throw msg →
       lines = [] ∧ ∃ cond, holds env cond = Throw msg).
Proof.
  unfold run.
  change (invoke env "PaymentProcessorBad" "processPayment" out) with
    (exec env
       [If "payment.type === 'creditCard'"
           [ConsoleLog "Processing credit card payment"]
           [If "payment.type === 'paypal'"
               [ConsoleLog "Processing PayPal payment"]
               [If "payment.type === 'bitcoin'"
                   [ConsoleLog "Processing Bitcoin payment"]
                   []]]] out).
  cbv -[holds text_of answer construct app length].
  destruct (holds env "payment.type === 'creditCard'") as [[]|msg1] eqn:H1;
    [exists ["Processing credit card payment"] | | exists []; rewrite app_nil_r];
    [|destruct (holds env "payment.type === 'paypal'") as [[]|msg2] eqn:H2;
      [exists ["Processing PayPal payment"] | | exists []; rewrite app_nil_r];
      [|destruct (holds env "payment.type === 'bitcoin'") as [[]|msg3] eqn:H3;
        [exists ["Processing Bitcoin payment"] | exists []; rewrite app_nil_r
         | exists []; rewrite app_nil_r]|] |].
  all: split_and!; [done | simpl; lia | intros; congruence | | ].
  all: try (intros Hev; done).
  all: try (intros msg Hmsg; discriminate Hmsg).
  all: try (intros Hev;
            match goal with
            | H : holds _ ?c = Throw _ |- _ => destruct (Hev c) as [b Hb]; congruence
            end).
  all: intros msg [= <-]; split; [done | by eexists].
Qed.

(** No payment at all: the first condition throws. *)
Example processPayment_bad_undefined :
  let missing := "TypeError: Cannot read properties of undefined (reading 'type')" in
  run (invoke {| holds := λ _, Throw missing; text_of := λ t, Normal t;
                 answer := λ _ _, mret (); construct := λ _, mret () |}
              "PaymentProcessorBad" "processPayment") [] =
  (Throw missing, []).
Proof. reflexivity. Qed.

(** notify handed no user. *)
Example notify_undefined_user :
  let missing := "TypeError: Cannot read properties of undefined (reading 'email')" in
  run (invoke {| holds := λ _, Normal false; text_of := λ _, Throw missing;
                 answer := λ _ _, mret (); construct := λ _, mret () |}
              "EmailNotificationService" "notify") [] =
  (Throw missing, []).
Proof. reflexivity. Qed.

(** X22. Among all classes of the guide, an instance of a subclass can
    stand in for an instance of any class it extends: it answers every
    method that class declares, and none of these throws where the
    original does not. The one exception is PenguinBad, whose fly throws
    although that of BirdBad does not. *)
Theorem subclasses_substitute c base :
  c ∈ classes → base ∈ classes → substitutes c base.
Proof.
  revert c base.
  assert (Forall (λ c, Forall (substitutes c) classes) classes) as Hall.
  { unfold classes. repeat (apply Forall_cons; split); try apply Forall_nil.
    all: try exact I.
    all: unfold substitutes; simpl cname; intros Hsub; vm_compute in Hsub;
      try discriminate Hsub.
    all: simpl methods; repeat (apply Forall_cons; split); try apply Forall_nil.
    all: do 2 eexists; (split; [reflexivity|]); simpl; try done. }
  intros c base Hc Hbase. rewrite Forall_forall in Hall. specialize (Hall c Hc).
  rewrite Forall_forall in Hall. by apply Hall.
Qed.

(** Penguin, two classes below Bird. *)
Lemma subclasses_substitute_witness :
  let c := mkClass "Penguin" (Some "SwimmingBird") [] in
  let base := mkClass "Bird" None [("move", [ConsoleLog "Moving..."])] in
  c ∈ classes ∧ base ∈ classes ∧ substitutes c base.
Proof.
  intros c base.
  assert (c ∈ classes) as Hc
    by (unfold classes; repeat first [apply list_elem_of_here | apply list_elem_of_further]).
  assert (base ∈ classes) as Hbase
    by (unfold classes; repeat first [apply list_elem_of_here | apply list_elem_of_further]).
  split_and!; [exact Hc | exact Hbase |].
  exact (subclasses_substitute c base Hc Hbase).
Defined.

Example PenguinBad_is_the_exception :
  subclass_of "PenguinBad" "BirdBad" = true ∧
  (lookup_method "BirdBad" "fly" ≫= λ found, Some (throws_explicitly found.2)) = Some false ∧
  (lookup_method "PenguinBad" "fly" ≫= λ found, Some (throws_explicitly found.2)) = Some true.
Proof. by split_and!. Qed.

Example Penguin_cannot_fly :
  lookup_method "Penguin" "fly" = None ∧
  lookup_method "Penguin" "swim" = Some ("SwimmingBird", [ConsoleLog "Swimming..."]).
Proof. by split. Qed.

End SolidRelations.
